(** * The Text-Limiter of scripts/utils.js

    A shallow embedding of [trimElementTextToCharLimit] and of the part of
    the DOM it touches, followed by the properties of the walk: budget,
    whitespace handling, truncation, frame conditions and cost. The asset
    path helpers and [getNewElem] of the same file and [decorate] of the
    hero banner block follow, on the same model of the DOM. *)

From Stdlib Require Import ZArith NArith List Bool Lia String Ascii.
Import ListNotations.
Open Scope Z_scope.

(** ** JavaScript strings

    A DOMString is a sequence of UTF-16 code units; [length] and [slice]
    count code units. *)

Definition CodeUnit := N.
Definition DOMString := list CodeUnit.

Definition js_length (s : DOMString) : Z := Z.of_nat (List.length s).

(** Clamping of one argument of [String.prototype.slice]: a negative index
    counts from the end of the string. *)
Definition relative_index (len k : Z) : Z :=
  if k <? 0 then Z.max (len + k) 0 else Z.min k len.

(** [s.slice(start, end)]. *)
Definition js_slice (s : DOMString) (start end_ : Z) : DOMString :=
  let len := js_length s in
  let from := relative_index len start in
  let to := relative_index len end_ in
  firstn (Z.to_nat (Z.max (to - from) 0)) (skipn (Z.to_nat from) s).

(** The class [\s] of ECMAScript regular expressions (WhiteSpace and
    LineTerminator code points, all of them in the basic plane). *)
Definition is_whitespace (c : CodeUnit) : bool :=
  ((9 <=? c) && (c <=? 13) || (c =? 32) || (c =? 160) || (c =? 5760)
   || (8192 <=? c) && (c <=? 8202) || (c =? 8232) || (c =? 8233)
   || (c =? 8239) || (c =? 8287) || (c =? 12288) || (c =? 65279))%N.

(** [/\S/.test(s)]: some code unit of [s] is not white space. *)
Definition test_S (s : DOMString) : bool :=
  existsb (fun c => negb (is_whitespace c)) s.

(** String literals of the examples (ASCII only). *)
Definition lit (s : string) : DOMString :=
  map N_of_ascii (list_ascii_of_string s).

(** ** DOM nodes

    The nodes that can occur below an element, told apart by [nodeType] as
    the source does. Every one of them implements [ChildNode.remove]. *)

Inductive CharDataKind := CDATA_SECTION | PROCESSING_INSTRUCTION | COMMENT.

Unset Elimination Schemes.
Inductive Node : Type :=
| Text (textContent : DOMString)
| Element (tagName : DOMString)
          (attributes : list (DOMString * DOMString))
          (childNodes : list Node)
| CharData (kind : CharDataKind) (data : DOMString).
Set Elimination Schemes.

Definition ELEMENT_NODE : Z := 1.
Definition TEXT_NODE : Z := 3.

Definition nodeType (node : Node) : Z :=
  match node with
  | Element _ _ _ => 1
  | Text _ => 3
  | CharData CDATA_SECTION _ => 4
  | CharData PROCESSING_INSTRUCTION _ => 7
  | CharData COMMENT _ => 8
  end.

Section NodeInduction.
Variable P : Node -> Prop.
Hypothesis HText : forall s, P (Text s).
Hypothesis HElement : forall tag attrs children,
    Forall P children -> P (Element tag attrs children).
Hypothesis HCharData : forall k d, P (CharData k d).

Fixpoint Node_ind (node : Node) : P node :=
  match node with
  | Text s => HText s
  | Element tag attrs children =>
      HElement tag attrs children
        ((fix all (l : list Node) : Forall P l :=
            match l with
            | [] => Forall_nil P
            | c :: l' => Forall_cons c (Node_ind c) (all l')
            end) children)
  | CharData k d => HCharData k d
  end.
End NodeInduction.

(** [node.remove()]: detaches the node from its parent; on a node without a
    parent it does nothing. [None] stands for "no longer in the tree". *)
Definition remove (hasParent : bool) (node : Node) : option Node :=
  if hasParent then None else Some node.

Definition present (r : option Node) : list Node :=
  match r with
  | Some n => [n]
  | None => []
  end.

(** ** The walk *)

Section Walk.
Variable limit : Z.

Section Some.
Variable visit : Node -> Z -> option Node * Z.

(** [children.some((child, index) => ...)] over the snapshot
    [Array.from(node.childNodes)]; the result is the child list left under
    the element and the counter. *)
Fixpoint someChild (children : list Node) (count : Z) : list Node * Z :=
  match children with
  | [] => ([], count)
  | child :: siblings =>
      if count >=? limit then (child :: siblings, count)
      else
        let '(child', count1) := visit child count in
        if count1 >=? limit then
          (* children.slice(index + 1).forEach(s => s.remove()) *)
          (present child', count1)
        else
          let '(rest, count2) := someChild siblings count1 in
          (present child' ++ rest, count2)
  end.

End Some.

(** [trimNode(node)], with the closure variable [count] threaded through.
    [hasParent] tells whether [node.parentNode] is non-null: it is for every
    child met during the walk, and is the caller's business for the root. *)
Fixpoint trimNode (hasParent : bool) (node : Node) (count : Z)
  : option Node * Z :=
  if count >=? limit then (remove hasParent node, count)
  else
    match node with
    | Text textContent =>
        let text := if test_S textContent then textContent else [] in
        let textContent' :=
          if count + js_length text >? limit
          then js_slice text 0 (limit - count)
          else textContent in
        (Some (Text textContent'), count + js_length text)
    | Element tag attrs childNodes =>
        let '(children', count') :=
          someChild (trimNode true) childNodes count in
        (Some (Element tag attrs children'), count')
    | CharData _ _ => (Some node, count)
    end.

End Walk.

(** The argument [root] as the caller passes it. *)
Inductive JSValue := JSNull | JSUndefined | JSNode (n : Node).

Inductive Completion (A : Type) : Type :=
| Normal (a : A)
| ThrowTypeError.
Arguments Normal {A} a.
Arguments ThrowTypeError {A}.

(** [trimElementTextToCharLimit(root, limit)]. The function returns nothing;
    the model returns what is left at the place of [root] and the final
    value of [count]. Numbers are modelled by [Z], which is exact for the
    integers the counter can reach. On [null] and [undefined] the first
    property access of [trimNode] throws: [root.remove] when
    [count >= limit], [root.nodeType] otherwise. *)
Definition trimElementTextToCharLimit
    (root : JSValue) (rootHasParent : bool) (limit : Z)
  : Completion (option Node * Z) :=
  let count := 0 in
  match root with
  | JSNull | JSUndefined =>
      if count >=? limit then ThrowTypeError else ThrowTypeError
  | JSNode n => Normal (trimNode limit rootHasParent n count)
  end.

(** ** Measures on trees *)

Definition sumZ (l : list Z) : Z := fold_right Z.add 0 l.

(** Contents of the text nodes of a tree, in document order. *)
Fixpoint texts (node : Node) : list DOMString :=
  match node with
  | Text s => [s]
  | Element _ _ children => flat_map texts children
  | CharData _ _ => []
  end.

Definition retained_texts (r : option Node) : list DOMString :=
  flat_map texts (present r).

(** Glossary: length of the content if it has a non-whitespace character,
    else zero. *)
Definition effective_length (s : DOMString) : Z :=
  if test_S s then js_length s else 0.

Definition total_length (ts : list DOMString) : Z := sumZ (map js_length ts).
Definition total_effective (ts : list DOMString) : Z :=
  sumZ (map effective_length ts).

Definition whitespace_only (node : Node) : Prop :=
  Forall (fun s => test_S s = false) (texts node).

Definition whitespace_total (ts : list DOMString) : Z :=
  total_length ts - total_effective ts.

Fixpoint node_count (node : Node) : nat :=
  match node with
  | Element _ _ children => S (list_sum (map node_count children))
  | _ => 1
  end.

(** A node is named by the child indices that lead to it from the root. *)
Definition Path := list nat.

Fixpoint node_at (node : Node) (path : Path) : option Node :=
  match path with
  | [] => Some node
  | i :: path' =>
      match node with
      | Element _ _ children =>
          match nth_error children i with
          | Some child => node_at child path'
          | None => None
          end
      | _ => None
      end
  end.

Definition is_prefix (s' s : DOMString) : Prop := exists rest, s = s' ++ rest.

(** ** The walk as a derivation

    [walks limit node count out count']: a call of [trimNode] that enters
    [node] with [count < limit] leaves [out] in its place and the counter at
    [count']. [walks_children] is the loop over the children. *)

Inductive walks (limit : Z) : Node -> Z -> Node -> Z -> Prop :=
| walks_text : forall s count,
    count < limit ->
    walks limit (Text s) count
      (Text (if count + effective_length s >? limit
             then firstn (Z.to_nat (limit - count)) s else s))
      (count + effective_length s)
| walks_element : forall tag attrs children count children' count',
    count < limit ->
    walks_children limit children count children' count' ->
    walks limit (Element tag attrs children) count
      (Element tag attrs children') count'
| walks_chardata : forall k d count,
    count < limit ->
    walks limit (CharData k d) count (CharData k d) count
with walks_children (limit : Z) : list Node -> Z -> list Node -> Z -> Prop :=
| walks_none : forall count,
    count < limit -> walks_children limit [] count [] count
| walks_last : forall child siblings count child' count1,
    walks limit child count child' count1 ->
    limit <= count1 ->
    walks_children limit (child :: siblings) count [child'] count1
| walks_next : forall child siblings count child' count1 rest count2,
    walks limit child count child' count1 ->
    count1 < limit ->
    walks_children limit siblings count1 rest count2 ->
    walks_children limit (child :: siblings) count (child' :: rest) count2.

Scheme walks_mut := Minimality for walks Sort Prop
  with walks_children_mut := Minimality for walks_children Sort Prop.
Combined Scheme walks_both from walks_mut, walks_children_mut.

(** ** Frame: what a trimmed tree may differ in

    [pruned node out]: [out] is [node] with trailing children detached here
    and there and some text contents cut to a prefix; tags, attributes and
    the other nodes are the same and nothing is added. *)

Inductive pruned : Node -> Node -> Prop :=
| pruned_text : forall s s',
    is_prefix s' s -> pruned (Text s) (Text s')
| pruned_element : forall tag attrs children children',
    pruned_children children children' ->
    pruned (Element tag attrs children) (Element tag attrs children')
| pruned_chardata : forall k d,
    pruned (CharData k d) (CharData k d)
with pruned_children : list Node -> list Node -> Prop :=
| pruned_rest_detached : forall children,
    pruned_children children []
| pruned_kept : forall child child' siblings siblings',
    pruned child child' ->
    pruned_children siblings siblings' ->
    pruned_children (child :: siblings) (child' :: siblings').

Scheme pruned_mut := Minimality for pruned Sort Prop
  with pruned_children_mut := Minimality for pruned_children Sort Prop.
Combined Scheme pruned_both from pruned_mut, pruned_children_mut.

(** ** The walk with a visit log

    The same walk, recording the path of every node [trimNode] is called
    on. *)

Section WalkLog.
Variable limit : Z.

Section SomeLog.
Variable visit : nat -> Node -> Z -> option Node * Z * list Path.

Fixpoint someChildLog (index : nat) (children : list Node) (count : Z)
  : list Node * Z * list Path :=
  match children with
  | [] => ([], count, [])
  | child :: siblings =>
      if count >=? limit then (child :: siblings, count, [])
      else
        let '(child', count1, log1) := visit index child count in
        if count1 >=? limit then (present child', count1, log1)
        else
          let '(rest, count2, log2) :=
            someChildLog (S index) siblings count1 in
          (present child' ++ rest, count2, log1 ++ log2)
  end.

End SomeLog.

Fixpoint trimNodeLog (hasParent : bool) (path : Path) (node : Node)
    (count : Z) : option Node * Z * list Path :=
  if count >=? limit then (remove hasParent node, count, [path])
  else
    match node with
    | Text textContent =>
        let text := if test_S textContent then textContent else [] in
        let textContent' :=
          if count + js_length text >? limit
          then js_slice text 0 (limit - count)
          else textContent in
        (Some (Text textContent'), count + js_length text, [path])
    | Element tag attrs childNodes =>
        let '(children', count', log) :=
          someChildLog
            (fun i child c => trimNodeLog true (path ++ [i]) child c)
            0%nat childNodes count in
        (Some (Element tag attrs children'), count', path :: log)
    | CharData _ _ => (Some node, count, [path])
    end.

End WalkLog.

(** What the log of a loop over [children], started at [index], holds:
    paths into the children, each child under its own index. *)
Definition child_paths (index : nat) (children : list Node) (q : Path)
  : Prop :=
  exists j q' child,
    q = (index + j)%nat :: q'
    /\ nth_error children j = Some child
    /\ node_at child q' <> None.

(** ** Text of a subtree

    [textContent] as the DOM computes it: the data of a text, comment,
    CDATA or processing-instruction node; for an element the data of its
    Text descendants (CDATA sections are Text nodes) in document order. *)

Fixpoint descendant_text (node : Node) : DOMString :=
  match node with
  | Text s => s
  | Element _ _ children => flat_map descendant_text children
  | CharData CDATA_SECTION d => d
  | CharData _ _ => []
  end.

Definition textContent (node : Node) : DOMString :=
  match node with
  | Text s => s
  | Element _ _ _ => descendant_text node
  | CharData _ d => d
  end.

(** A node and what the walk left of it: neither a text that had content
    nor an element that had children is left empty. *)
Definition kept_nonempty (n n' : Node) : Prop :=
  match n, n' with
  | Text s, Text s' => s <> [] -> s' <> []
  | Element tag attrs children, Element tag' attrs' children' =>
      tag' = tag /\ attrs' = attrs /\ (children <> [] -> children' <> [])
  | CharData k d, CharData k' d' => k' = k /\ d' = d
  | _, _ => False
  end.

(** ** Asset paths (scripts/utils.js)

    [hlx.codeBasePath] is a global of the page; the two functions are
    template literals over it. *)

Section AssetPaths.
Variable codeBasePath : DOMString.

Definition getAssetPath (path : DOMString) : DOMString :=
  codeBasePath ++ path.

Definition getCSSAssetPath (path : DOMString) : DOMString :=
  lit "url(" ++ codeBasePath ++ path ++ lit ")".

End AssetPaths.

(** ** Queries on elements *)

Definition DOMString_eqb (a b : DOMString) : bool :=
  if list_eq_dec N.eq_dec a b then true else false.

Definition is_element (n : Node) : bool :=
  match n with
  | Element _ _ _ => true
  | _ => false
  end.

(** [element.children], from [element.childNodes]. *)
Definition children_of (childNodes : list Node) : list Node :=
  filter is_element childNodes.

(** [array[0]]. *)
Definition item0 (l : list Node) : JSValue :=
  match l with
  | n :: _ => JSNode n
  | [] => JSUndefined
  end.

(** The descendants of a node in document order. *)
Fixpoint descendants (node : Node) : list Node :=
  match node with
  | Element _ _ children => flat_map (fun c => c :: descendants c) children
  | _ => []
  end.

(** The first field of [Element] is the name the element has in the markup,
    which is what a type selector is compared with. *)
Definition has_name (name : DOMString) (n : Node) : bool :=
  match n with
  | Element tag _ _ => DOMString_eqb tag name
  | _ => false
  end.

(** [element.querySelector(name)] for a type selector: the first descendant
    element of that name. *)
Definition querySelector (name : DOMString) (node : Node) : option Node :=
  find (has_name name) (descendants node).

Definition getAttribute (name : DOMString)
    (attrs : list (DOMString * DOMString)) : option DOMString :=
  option_map snd (find (fun a => DOMString_eqb (fst a) name) attrs).

(** Setting an attribute changes the value in place, or appends the
    attribute. *)
Fixpoint setAttribute (name value : DOMString)
    (attrs : list (DOMString * DOMString)) : list (DOMString * DOMString) :=
  match attrs with
  | [] => [(name, value)]
  | a :: rest =>
      if DOMString_eqb (fst a) name then (fst a, value) :: rest
      else a :: setAttribute name value rest
  end.

(** [String.prototype.trim]: white space is dropped at both ends. *)
Fixpoint trimStart (s : DOMString) : DOMString :=
  match s with
  | c :: s' => if is_whitespace c then trimStart s' else s
  | [] => []
  end.

Definition js_trim (s : DOMString) : DOMString :=
  rev (trimStart (rev (trimStart s))).

Definition is_empty (s : DOMString) : bool :=
  match s with
  | [] => true
  | _ => false
  end.

(** ** getNewElem (scripts/utils.js) *)

(** An element passed to [getNewElem], with its [parentElement]. *)
Record Argument := { elm : Node; parentElement : option Node }.

(** [blockDivElm.dataset.blockName]: the value of [data-block-name]. *)
Definition dataset_blockName (n : Node) : option DOMString :=
  match n with
  | Element _ attrs _ => getAttribute (lit "data-block-name") attrs
  | _ => None
  end.

(** The test of the loop: [divElm.textContent.trim() !== '' ||
    divElm.querySelector('picture')]. *)
Definition has_content (divElm : Node) : bool :=
  negb (is_empty (js_trim (textContent divElm)))
  || match querySelector (lit "picture") divElm with
     | Some _ => true
     | None => false
     end.

(** [isItem ? divElm.children[0] : divElm.children[0].children[0]]; reading
    [children] of [undefined] throws. *)
Definition targetDiv (isItem : bool) (childNodes : list Node)
  : Completion JSValue :=
  if isItem then Normal (item0 (children_of childNodes))
  else
    match item0 (children_of childNodes) with
    | JSNode (Element _ _ inner) => Normal (item0 (children_of inner))
    | _ => ThrowTypeError
    end.

(** One turn of [args.forEach], on the pair of [fieldElements] and
    [allNulls]. A node that is not an element has no [querySelector] and no
    [children]: either the test or the target throws. *)
Definition visitArg (isItem : bool) (divElm : Node)
    (state : list JSValue * bool) : Completion (list JSValue * bool) :=
  let '(fieldElements, allNulls) := state in
  match divElm with
  | Element _ _ childNodes =>
      if has_content divElm then
        match targetDiv isItem childNodes with
        | Normal target => Normal (fieldElements ++ [target], false)
        | ThrowTypeError => ThrowTypeError
        end
      else Normal (fieldElements ++ [JSNull], allNulls)
  | _ => ThrowTypeError
  end.

Fixpoint forEachArg (isItem : bool) (args : list Node)
    (state : list JSValue * bool) : Completion (list JSValue * bool) :=
  match args with
  | [] => Normal state
  | divElm :: rest =>
      match visitArg isItem divElm state with
      | Normal state' => forEachArg isItem rest state'
      | ThrowTypeError => ThrowTypeError
      end
  end.

(** [getNewElem(...args, callback)]; [None] is the [null] it returns. *)
Definition getNewElem {R : Type} (args : list Argument)
    (callback : list JSValue -> R) : Completion (option R) :=
  match match args with
        | a :: _ => parentElement a
        | [] => None
        end with
  | None => Normal None
  | Some blockDivElm =>
      let isItem :=
        match dataset_blockName blockDivElm with
        | None => true
        | Some _ => false
        end in
      match forEachArg isItem (map elm args) ([], true) with
      | ThrowTypeError => ThrowTypeError
      | Normal (fieldElements, allNulls) =>
          let fieldElements := fieldElements ++ [JSNode blockDivElm] in
          if allNulls then Normal None
          else Normal (Some (callback fieldElements))
      end
  end.

(** What the loop pushes for an element it does not throw on. *)
Definition field_of (divElm : Node) (target : Node -> JSValue) : JSValue :=
  if has_content divElm then target divElm else JSNull.

Definition child_nodes (n : Node) : list Node :=
  match n with
  | Element _ _ childNodes => childNodes
  | _ => []
  end.

(** On a block the target is looked up one level further down: an element
    with content and no element child makes the lookup throw. *)
Definition lacks_wrapper (divElm : Node) : bool :=
  has_content divElm
  && match children_of (child_nodes divElm) with
     | [] => true
     | _ => false
     end.

Definition block_target (divElm : Node) : JSValue :=
  match children_of (child_nodes divElm) with
  | wrapper :: _ => item0 (children_of (child_nodes wrapper))
  | [] => JSUndefined
  end.

(** ** Class lists

    [element.classList.add(token)] as the DOM defines it on the [class]
    attribute: the attribute is parsed into an ordered set of tokens, the
    token is appended unless it is there, and the set is written back. *)

Definition is_ascii_whitespace (c : CodeUnit) : bool :=
  ((c =? 9) || (c =? 10) || (c =? 12) || (c =? 13) || (c =? 32))%N.

(** Split on ASCII white space; [token] is the token being read. *)
Fixpoint split_tokens (s : DOMString) (token : DOMString)
  : list DOMString :=
  match s with
  | [] => if is_empty token then [] else [token]
  | c :: s' =>
      if is_ascii_whitespace c then
        if is_empty token then split_tokens s' []
        else token :: split_tokens s' []
      else split_tokens s' (token ++ [c])
  end.

Definition token_mem (token : DOMString) (tokens : list DOMString) : bool :=
  existsb (DOMString_eqb token) tokens.

Definition append_token (tokens : list DOMString) (token : DOMString)
  : list DOMString :=
  if token_mem token tokens then tokens else tokens ++ [token].

Definition ordered_set_parser (s : DOMString) : list DOMString :=
  fold_left append_token (split_tokens s []) [].

Fixpoint serialize_tokens (tokens : list DOMString) : DOMString :=
  match tokens with
  | [] => []
  | [token] => token
  | token :: rest => token ++ 32%N :: serialize_tokens rest
  end.

(** The token set of [element.classList]. *)
Definition classTokens (attrs : list (DOMString * DOMString))
  : list DOMString :=
  match getAttribute (lit "class") attrs with
  | Some value => ordered_set_parser value
  | None => []
  end.

Definition classList_add (token : DOMString)
    (attrs : list (DOMString * DOMString)) : list (DOMString * DOMString) :=
  setAttribute (lit "class")
    (serialize_tokens (append_token (classTokens attrs) token)) attrs.

(** A token [classList.add] accepts. *)
Definition valid_token (token : DOMString) : Prop :=
  token <> [] /\ forallb (fun c => negb (is_ascii_whitespace c)) token = true.

(** ** decorate (blocks/hero-banner-demo/hero-banner-demo.js) *)

(** [document.createElement('div')] followed by [classList.add(cls)] and
    the appending of [children]. *)
Definition wrapper (cls : string) (children : list Node) : Node :=
  Element (lit "div") (classList_add (lit cls) []) children.

(** [row.firstElementChild || row]. *)
Definition inner_of (row : Node) : Node :=
  match children_of (child_nodes row) with
  | first :: _ => first
  | [] => row
  end.

Definition add_class (cls : string) (n : Node) : Node :=
  match n with
  | Element tag attrs children =>
      Element tag (classList_add (lit cls) attrs) children
  | _ => n
  end.

(** [decorate(block)]: the block is rebuilt in place; the model returns the
    block as it is afterwards. Spreading [block.children] of a node that is
    not an element throws. *)
Definition decorate (block : Node) : Completion Node :=
  match block with
  | Element tag attrs childNodes =>
      let rows := children_of childNodes in
      let imageRow := nth_error rows 0 in
      let titleRow := nth_error rows 1 in
      let descRow := nth_error rows 2 in
      let ctaRow := nth_error rows 3 in
      let attrs' := classList_add (lit "hero-banner-initialized") attrs in
      let media :=
        match imageRow with
        | Some row =>
            match querySelector (lit "picture") row with
            | Some picture => [picture]
            | None => []
            end
        | None => []
        end in
      let title :=
        match titleRow with
        | Some row => [add_class "hero-banner-title" (inner_of row)]
        | None => []
        end in
      let description :=
        match descRow with
        | Some row => [add_class "hero-banner-description" (inner_of row)]
        | None => []
        end in
      let ctas :=
        match ctaRow with
        | Some row =>
            [wrapper "hero-banner-ctas" (child_nodes (inner_of row))]
        | None => []
        end in
      Normal
        (Element tag attrs'
           [wrapper "hero-banner-media" media;
            wrapper "hero-banner-content" (title ++ description ++ ctas)])
  | _ => ThrowTypeError
  end.

(** ** The walk on JavaScript values, with its exceptions

    The same function, run on a value that need not be a node. Reading a
    property of [null] or [undefined] throws a TypeError; every DOM mutation
    performed is logged, so that an exception tells what was done before it.
    The recursion of the source is bounded by [fuel], one unit for each
    nested call of [trimNode]. *)

Inductive Property :=
| prop_remove | prop_nodeType | prop_textContent | prop_childNodes.

Inductive DomOp :=
| OpRemove (target : Node)
| OpSetTextContent (target : Node) (value : DOMString).

Inductive Outcome (A : Type) : Type :=
| Returns (a : A) (ops : list DomOp)
| TypeError (receiver : JSValue) (property : Property) (ops : list DomOp)
| OutOfFuel.
Arguments Returns {A} a ops.
Arguments TypeError {A} receiver property ops.
Arguments OutOfFuel {A}.

(** A computation from the mutations so far to an outcome. *)
Definition Run (A : Type) : Type := list DomOp -> Outcome A.

Definition ret {A : Type} (a : A) : Run A := fun ops => Returns a ops.

Definition bind {A B : Type} (m : Run A) (f : A -> Run B) : Run B :=
  fun ops =>
    match m ops with
    | Returns a ops' => f a ops'
    | TypeError receiver property ops' => TypeError receiver property ops'
    | OutOfFuel => OutOfFuel
    end.

(** [value.property]: the object the property is read from. *)
Definition read (value : JSValue) (property : Property) : Run Node :=
  fun ops =>
    match value with
    | JSNode n => Returns n ops
    | _ => TypeError value property ops
    end.

Definition perform (op : DomOp) : Run unit :=
  fun ops => Returns tt (ops ++ [op]).

(** [node.textContent = value] as the DOM defines it for each kind. *)
Definition set_textContent (n : Node) (value : DOMString) : Node :=
  match n with
  | Text _ => Text value
  | Element tag attrs _ =>
      Element tag attrs (if is_empty value then [] else [Text value])
  | CharData k _ => CharData k value
  end.

(** An element after the loop over its children. *)
Definition with_children (n : Node) (children : list Node) : Node :=
  match n with
  | Element tag attrs _ => Element tag attrs children
  | _ => n
  end.

(** Nesting depth of a tree: what the recursion needs of the stack. *)
Fixpoint node_height (node : Node) : nat :=
  match node with
  | Element _ _ children => S (list_max (map node_height children))
  | _ => 0
  end.

Definition value_height (value : JSValue) : nat :=
  match value with
  | JSNode n => node_height n
  | _ => 0
  end.

Module Throwing.

Local Notation "x <- m ;; k" := (bind m (fun x => k))
  (at level 61, m at next level, right associativity).

Section Walk.
Variable limit : Z.

(** [children.slice(index + 1).forEach((sibling) => sibling.remove())]. *)
Fixpoint removeEach (siblings : list Node) : Run unit :=
  match siblings with
  | [] => ret tt
  | sibling :: rest =>
      n <- read (JSNode sibling) prop_remove ;;
      _ <- perform (OpRemove n) ;;
      removeEach rest
  end.

Section Some.
Variable visit : JSValue -> Z -> Run (option Node * Z).

Fixpoint someChild (children : list Node) (count : Z)
  : Run (list Node * Z) :=
  match children with
  | [] => ret ([], count)
  | child :: siblings =>
      if count >=? limit then ret (child :: siblings, count)
      else
        r <- visit (JSNode child) count ;;
        if snd r >=? limit then
          _ <- removeEach siblings ;;
          ret (present (fst r), snd r)
        else
          r' <- someChild siblings (snd r) ;;
          ret (present (fst r) ++ fst r', snd r')
  end.

End Some.

Fixpoint trimNode (fuel : nat) (hasParent : bool) (node : JSValue)
    (count : Z) : Run (option Node * Z) :=
  match fuel with
  | O => fun _ => OutOfFuel
  | S fuel' =>
      if count >=? limit then
        n <- read node prop_remove ;;
        _ <- perform (OpRemove n) ;;
        ret (remove hasParent n, count)
      else
        n <- read node prop_nodeType ;;
        if nodeType n =? TEXT_NODE then
          n <- read node prop_textContent ;;
          let text := if test_S (textContent n) then textContent n else [] in
          if count + js_length text >? limit then
            _ <- perform
                   (OpSetTextContent n (js_slice text 0 (limit - count))) ;;
            ret (Some (set_textContent n (js_slice text 0 (limit - count))),
                 count + js_length text)
          else ret (Some n, count + js_length text)
        else if nodeType n =? ELEMENT_NODE then
          n <- read node prop_childNodes ;;
          r <- someChild (trimNode fuel' true) (child_nodes n) count ;;
          ret (Some (with_children n (fst r)), snd r)
        else ret (Some n, count)
  end.

End Walk.

(** [trimElementTextToCharLimit(root, limit)], started with no mutation
    done. *)
Definition trimElementTextToCharLimit (fuel : nat)
    (root : JSValue) (rootHasParent : bool) (limit : Z)
  : Outcome (option Node * Z) :=
  let count := 0 in
  trimNode limit fuel rootHasParent root count [].

End Throwing.

(** ** Scenario trees *)

Definition el (tag : string) (children : list Node) : Node :=
  Element (lit tag) [] children.

Definition scenario1 : Node :=
  el "div" [Text (lit "Hello "); el "b" [Text (lit "World")]].

Definition scenario2 : Node := el "p" [Text (lit "   ")].

Definition scenario3 : Node :=
  el "div" [Text (lit "AB"); el "span" [Text (lit "CD")]; Text (lit "EF")].

(** <div>AB<br></div>: an empty element after the last text. *)
Definition line_break_after_text : Node :=
  el "div" [Text (lit "AB"); el "br" []].


(** ** Strings *)

Lemma js_length_nonneg : forall s, 0 <= js_length s.
Proof. intros s; unfold js_length; lia. Qed.

Lemma effective_length_nonneg : forall s, 0 <= effective_length s.
Proof.
  intros s; unfold effective_length.
  destruct (test_S s); [apply js_length_nonneg | lia].
Qed.

Lemma effective_length_le : forall s, effective_length s <= js_length s.
Proof.
  intros s; unfold effective_length.
  destruct (test_S s); [lia | apply js_length_nonneg].
Qed.

(** A slice from 0 to a non-negative end is a [firstn]. *)
Lemma js_slice_from_start : forall s e,
    0 <= e -> js_slice s 0 e = firstn (Z.to_nat e) s.
Proof.
  intros s e He. unfold js_slice, relative_index.
  pose proof (js_length_nonneg s) as Hs.
  replace (0 <? 0) with false by reflexivity.
  destruct (e <? 0) eqn:E; [apply Z.ltb_lt in E; lia |].
  rewrite (Z.min_l 0) by lia. simpl skipn.
  rewrite Z.sub_0_r, Z.max_l by lia.
  destruct (Z.le_gt_cases e (js_length s)) as [Hle | Hgt].
  - now rewrite Z.min_l by lia.
  - rewrite Z.min_r by lia. unfold js_length in *.
    rewrite Nat2Z.id, !firstn_all2; trivial; lia.
Qed.

Lemma firstn_is_prefix : forall n (s : DOMString), is_prefix (firstn n s) s.
Proof. intros n s; exists (skipn n s); symmetry; apply firstn_skipn. Qed.

Lemma is_prefix_refl : forall s, is_prefix s s.
Proof. intros s; exists []; symmetry; apply app_nil_r. Qed.

Lemma js_length_firstn : forall k s,
    0 <= k <= js_length s -> js_length (firstn (Z.to_nat k) s) = k.
Proof.
  intros k s Hk. unfold js_length in *. rewrite length_firstn. lia.
Qed.

(** ** Sums over text nodes *)

Lemma sumZ_app : forall l1 l2, sumZ (l1 ++ l2) = sumZ l1 + sumZ l2.
Proof.
  induction l1 as [| x l1 IH]; intros l2; simpl; [| rewrite IH]; lia.
Qed.

Lemma total_length_app : forall t1 t2,
    total_length (t1 ++ t2) = total_length t1 + total_length t2.
Proof. intros; unfold total_length; now rewrite map_app, sumZ_app. Qed.

Lemma total_effective_app : forall t1 t2,
    total_effective (t1 ++ t2) = total_effective t1 + total_effective t2.
Proof. intros; unfold total_effective; now rewrite map_app, sumZ_app. Qed.

Lemma total_effective_nonneg : forall ts, 0 <= total_effective ts.
Proof.
  induction ts as [| s ts IH]; unfold total_effective in *; simpl; [lia |].
  pose proof (effective_length_nonneg s); lia.
Qed.

Lemma whitespace_total_nonneg : forall ts, 0 <= whitespace_total ts.
Proof.
  unfold whitespace_total, total_length, total_effective.
  induction ts as [| s ts IH]; simpl; [lia |].
  pose proof (effective_length_le s); lia.
Qed.

Lemma whitespace_total_app : forall t1 t2,
    whitespace_total (t1 ++ t2) = whitespace_total t1 + whitespace_total t2.
Proof.
  intros; unfold whitespace_total.
  rewrite total_length_app, total_effective_app; lia.
Qed.

Lemma whitespace_only_effective : forall ts,
    Forall (fun s => test_S s = false) ts -> total_effective ts = 0.
Proof.
  induction 1 as [| s ts Hs _ IH]; [reflexivity |].
  unfold total_effective in *; simpl. unfold effective_length at 1.
  rewrite Hs; lia.
Qed.

(** ** The function and its derivations *)

Lemma geb_false : forall a b, a < b -> (a >=? b) = false.
Proof. intros; rewrite Z.geb_leb; apply Z.leb_gt; lia. Qed.

Lemma geb_true : forall a b, b <= a -> (a >=? b) = true.
Proof. intros; rewrite Z.geb_leb; apply Z.leb_le; lia. Qed.

(** The branches of [trimNode] are the tests on [nodeType]. *)
Lemma nodeType_text : forall node,
    nodeType node = TEXT_NODE <-> exists s, node = Text s.
Proof.
  intros node; split.
  - destruct node as [s | | []]; try discriminate. now exists s.
  - now intros [s ->].
Qed.

Lemma nodeType_element : forall node,
    nodeType node = ELEMENT_NODE
    <-> exists tag attrs children, node = Element tag attrs children.
Proof.
  intros node; split.
  - destruct node as [| tag attrs children | []]; try discriminate.
    now exists tag, attrs, children.
  - now intros (tag & attrs & children & ->).
Qed.

(** Once the limit is reached, [trimNode] only calls [node.remove()]. *)
Lemma trimNode_exhausted : forall limit hasParent node count,
    limit <= count ->
    trimNode limit hasParent node count = (remove hasParent node, count).
Proof.
  intros limit hp node count H.
  destruct node; simpl; now rewrite geb_true.
Qed.

(** The text branch, in terms of the effective length. *)
Lemma trimNode_text : forall limit hasParent s count,
    count < limit ->
    trimNode limit hasParent (Text s) count
    = (Some (Text (if count + effective_length s >? limit
                   then firstn (Z.to_nat (limit - count)) s else s)),
       count + effective_length s).
Proof.
  intros limit hp s count Hlt. simpl. rewrite geb_false by assumption.
  unfold effective_length. destruct (test_S s).
  - destruct (count + js_length s >? limit); trivial.
    now rewrite js_slice_from_start by lia.
  - change (js_length []) with 0. rewrite Z.add_0_r.
    replace (count >? limit) with false; trivial.
    symmetry. rewrite Z.gtb_ltb. apply Z.ltb_ge. lia.
Qed.

(** Below the limit every call of [trimNode] follows a derivation, keeps
    the node in place, and does not look at [hasParent]. *)
Lemma trimNode_walks : forall limit node hasParent count,
    count < limit ->
    exists out count',
      trimNode limit hasParent node count = (Some out, count')
      /\ walks limit node count out count'.
Proof.
  intros limit node.
  induction node as [s | tag attrs children IH | k d] using Node_ind;
    intros hp count Hlt.
  - rewrite trimNode_text by assumption.
    eexists _, _; split; [reflexivity | now constructor].
  - assert (Hloop : exists children' count',
               someChild limit (trimNode limit true) children count
               = (children', count')
               /\ walks_children limit children count children' count').
    { clear tag attrs. revert count Hlt.
      induction IH as [| child siblings Hchild _ IHs]; intros count Hlt.
      - eexists _, _; split; [reflexivity | now constructor].
      - simpl. rewrite geb_false by assumption.
        destruct (Hchild true count Hlt) as (child' & count1 & -> & Hw).
        destruct (Z.lt_ge_cases count1 limit) as [Hlt1 | Hge1].
        + rewrite geb_false by assumption.
          destruct (IHs count1 Hlt1) as (rest & count2 & -> & Hws).
          eexists _, _; split; [reflexivity |].
          simpl; eapply walks_next; eassumption.
        + rewrite geb_true by assumption.
          eexists _, _; split; [reflexivity |].
          simpl; eapply walks_last; eassumption. }
    destruct Hloop as (children' & count' & Heq & Hw).
    simpl. rewrite geb_false by assumption. rewrite Heq.
    eexists _, _; split; [reflexivity | now constructor].
  - simpl. rewrite geb_false by assumption.
    eexists _, _; split; [reflexivity | now constructor].
Qed.

(** Induction over a derivation and the derivations of its children. *)
Ltac walk_induction :=
  match goal with
  | |- forall limit : Z, _ => intros limit; walk_induction
  | |- _ /\ _ => apply walks_both; simpl; intros
  end.

Lemma walks_counter :
  forall limit,
    (forall node count out count',
        walks limit node count out count' -> count < limit /\ count <= count')
    /\ (forall children count children' count',
           walks_children limit children count children' count' ->
           count < limit /\ count <= count').
Proof.
  walk_induction; try lia.
  pose proof (effective_length_nonneg s); lia.
Qed.

(** A subtree whose effective text fits strictly below the limit is left as
    it is, and the counter advances by its effective length. *)
Lemma walks_unchanged :
  forall limit,
    (forall node count out count',
        walks limit node count out count' ->
        count + total_effective (texts node) < limit ->
        out = node /\ count' = count + total_effective (texts node))
    /\ (forall children count children' count',
           walks_children limit children count children' count' ->
           count + total_effective (flat_map texts children) < limit ->
           children' = children
           /\ count' = count + total_effective (flat_map texts children)).
Proof.
  walk_induction.
  - unfold total_effective in *; simpl in *.
    replace (count + effective_length s >? limit) with false.
    + split; [reflexivity | lia].
    + symmetry; rewrite Z.gtb_ltb; apply Z.ltb_ge; lia.
  - destruct H1 as [-> ->]; [assumption | now split].
  - unfold total_effective; simpl; split; [reflexivity | lia].
  - unfold total_effective; simpl; split; [reflexivity | lia].
  - rewrite total_effective_app in H2.
    pose proof (total_effective_nonneg (flat_map texts siblings)).
    destruct H0 as [_ ->]; lia.
  - rewrite total_effective_app in *.
    pose proof (total_effective_nonneg (flat_map texts siblings)).
    destruct H0 as [-> ->]; [lia |].
    destruct H3 as [-> ->]; [lia |].
    split; [reflexivity | lia].
Qed.

(** The budget: what is kept of the counted text never exceeds what is left
    of the limit, and whitespace-only text comes on top of it. *)
Lemma walks_budget :
  forall limit,
    (forall node count out count',
        walks limit node count out count' ->
        total_effective (texts out) <= Z.min count' limit - count
        /\ total_length (texts out)
           <= Z.min count' limit - count + whitespace_total (texts node))
    /\ (forall children count children' count',
           walks_children limit children count children' count' ->
           total_effective (flat_map texts children')
           <= Z.min count' limit - count
           /\ total_length (flat_map texts children')
              <= Z.min count' limit - count
                 + whitespace_total (flat_map texts children)).
Proof.
  walk_induction.
  - pose proof (effective_length_le s) as Hle.
    pose proof (effective_length_nonneg s) as Hge.
    unfold whitespace_total, total_length, total_effective; simpl.
    destruct (count + effective_length s >? limit) eqn:E.
    + apply Z.gtb_lt in E.
      pose proof (effective_length_le (firstn (Z.to_nat (limit - count)) s)).
      rewrite js_length_firstn in * by lia. lia.
    + rewrite Z.gtb_ltb in E. apply Z.ltb_ge in E. lia.
  - assumption.
  - unfold whitespace_total, total_length, total_effective; simpl; lia.
  - unfold whitespace_total, total_length, total_effective; simpl; lia.
  - rewrite !app_nil_r, whitespace_total_app.
    pose proof (whitespace_total_nonneg (flat_map texts siblings)). lia.
  - rewrite total_effective_app, total_length_app, whitespace_total_app.
    lia.
Qed.

(** The frame: nodes are only detached, texts only cut to a prefix. *)
Lemma walks_pruned :
  forall limit,
    (forall node count out count',
        walks limit node count out count' -> pruned node out)
    /\ (forall children count children' count',
           walks_children limit children count children' count' ->
           pruned_children children children').
Proof.
  walk_induction.
  - constructor. destruct (count + effective_length s >? limit).
    + apply firstn_is_prefix.
    + apply is_prefix_refl.
  - now constructor.
  - constructor.
  - constructor.
  - constructor; [assumption | constructor].
  - now constructor.
Qed.

(** ** Consequences of the frame relation *)

Lemma pruned_children_nth : forall i children children' child',
    pruned_children children children' ->
    nth_error children' i = Some child' ->
    exists child, nth_error children i = Some child /\ pruned child child'.
Proof.
  induction i as [| i IH]; intros children children' child' Hp Hnth;
    inversion Hp; subst; simpl in Hnth; try discriminate.
  - injection Hnth as <-. eexists; split; [reflexivity | assumption].
  - simpl. eapply IH; eassumption.
Qed.

(** A node of the pruned tree sits at the same path in the original. *)
Lemma pruned_node_at : forall path node out n',
    pruned node out ->
    node_at out path = Some n' ->
    exists n, node_at node path = Some n /\ pruned n n'.
Proof.
  induction path as [| i path IH]; intros node out n' Hp Hat; simpl in *.
  - injection Hat as <-. eexists; split; [reflexivity | assumption].
  - inversion Hp; subst; try discriminate.
    destruct (nth_error children' i) as [child' |] eqn:E; [| discriminate].
    destruct (pruned_children_nth _ _ _ _ H E) as (child & -> & Hc).
    eapply IH; eassumption.
Qed.

Lemma pruned_node_count :
  (forall node out, pruned node out ->
                    (node_count out <= node_count node)%nat)
  /\ (forall children children',
         pruned_children children children' ->
         (list_sum (map node_count children')
          <= list_sum (map node_count children))%nat).
Proof.
  apply pruned_both; simpl; intros; lia.
Qed.

(** A call of the exported function on a node, below the limit. *)
Lemma trim_below_limit : forall root rootHasParent limit,
    0 < limit ->
    exists out count',
      trimElementTextToCharLimit (JSNode root) rootHasParent limit
      = Normal (Some out, count')
      /\ walks limit root 0 out count'.
Proof.
  intros root hp limit Hpos. unfold trimElementTextToCharLimit.
  destruct (trimNode_walks limit root hp 0 Hpos) as (out & count' & -> & Hw).
  now exists out, count'.
Qed.

Lemma retained_texts_some : forall node, retained_texts (Some node) = texts node.
Proof. intros; unfold retained_texts; simpl; apply app_nil_r. Qed.

(** ** The budget *)

(** C1, as the code has it: for a limit >= 0 and a root that has a parent
    (or a limit > 0), the effective lengths of the text nodes left in the
    tree sum to at most the limit; the plain lengths do so up to the
    whitespace-only text of the input, which is kept and not counted. *)
Theorem budget_respected :
  forall root rootHasParent limit out count',
    0 <= limit ->
    rootHasParent = true \/ 0 < limit ->
    trimElementTextToCharLimit (JSNode root) rootHasParent limit
    = Normal (out, count') ->
    total_effective (retained_texts out) <= limit
    /\ total_length (retained_texts out)
       <= limit + whitespace_total (texts root).
Proof.
  intros root hp limit out count' Hlimit Hroot Hrun.
  pose proof (whitespace_total_nonneg (texts root)) as Hws.
  destruct (Z.eq_dec limit 0) as [-> | Hne].
  - destruct Hroot as [-> | Hpos]; [| lia].
    unfold trimElementTextToCharLimit in Hrun.
    rewrite trimNode_exhausted in Hrun by lia.
    injection Hrun as <- _. cbn. lia.
  - destruct (trim_below_limit root hp limit) as (o & c & Heq & Hw); [lia |].
    rewrite Heq in Hrun. injection Hrun as <- <-.
    rewrite retained_texts_some.
    destruct (walks_budget limit) as [Hbudget _].
    destruct (Hbudget _ _ _ _ Hw). lia.
Qed.

Lemma budget_respected_scenario1 :
  total_effective (retained_texts (Some (el "div" [Text (lit "Hello")]))) <= 5
  /\ total_length (retained_texts (Some (el "div" [Text (lit "Hello")])))
     <= 5 + whitespace_total (texts scenario1).
Proof.
  apply (budget_respected scenario1 true 5 _ 6);
    [lia | left; reflexivity | reflexivity].
Defined.

(** Whitespace-only text is kept whole whatever the limit, so the plain
    lengths of the retained text can exceed it: <p>   </p> with limit 1. *)
Lemma retained_length_exceeds_limit :
  trimElementTextToCharLimit (JSNode scenario2) true 1
  = Normal (Some scenario2, 0)
  /\ total_length (retained_texts (Some scenario2)) = 3
  /\ ~ total_length (retained_texts (Some scenario2)) <= 1.
Proof.
  split; [reflexivity |]. split; [reflexivity |].
  change (total_length (retained_texts (Some scenario2))) with 3. lia.
Qed.

(** ** Whitespace-only trees *)

(** C2, as the code has it: on a tree whose text is all white space no node
    below the root is removed and no text is altered; with a limit >= 1 the
    root stays too, with limit 0 the walk calls [root.remove()]. *)
Theorem whitespace_only_tree :
  forall root rootHasParent limit,
    whitespace_only root ->
    0 <= limit ->
    trimElementTextToCharLimit (JSNode root) rootHasParent limit
    = Normal (if limit =? 0 then remove rootHasParent root else Some root, 0).
Proof.
  intros root hp limit Hws Hlimit.
  apply whitespace_only_effective in Hws.
  destruct (Z.eqb_spec limit 0) as [-> | Hne].
  - unfold trimElementTextToCharLimit. now rewrite trimNode_exhausted by lia.
  - destruct (trim_below_limit root hp limit) as (o & c & Heq & Hw); [lia |].
    destruct (walks_unchanged limit) as [Hsame _].
    destruct (Hsame _ _ _ _ Hw) as [-> ->]; [lia |].
    rewrite Heq, Hws. reflexivity.
Qed.

Lemma whitespace_only_scenario2 :
  trimElementTextToCharLimit (JSNode scenario2) true 4
  = Normal (Some scenario2, 0).
Proof.
  apply (whitespace_only_tree scenario2 true 4).
  - repeat constructor.
  - lia.
Defined.

(** With limit 0 the root of <p>   </p> is detached from its parent. *)
Lemma whitespace_only_root_removed :
  whitespace_only scenario2
  /\ trimElementTextToCharLimit (JSNode scenario2) true 0 = Normal (None, 0)
  /\ @None Node <> Some scenario2.
Proof.
  split; [repeat constructor |]. split; [reflexivity | discriminate].
Qed.

(** ** Scenarios *)

(** Scenario 1: "Hello " is cut to "Hello", the counter passes the limit and
    the <b> element goes. *)
Example scenario1_trimmed :
  trimElementTextToCharLimit (JSNode scenario1) true 5
  = Normal (Some (el "div" [Text (lit "Hello")]), 6).
Proof. reflexivity. Qed.

(** C3: on <div>AB<span>CD</span>EF</div> with limit 3, "AB" is kept, the
    span is kept with its text cut to "C", "EF" is removed, and the counter
    ends at 4. *)
Theorem scenario3_trimmed :
  forall rootHasParent,
    trimElementTextToCharLimit (JSNode scenario3) rootHasParent 3
    = Normal (Some (el "div" [Text (lit "AB"); el "span" [Text (lit "C")]]), 4).
Proof.
  intros []; reflexivity.
Qed.

(** ** One text node *)

(** C4: a text node entered below the limit advances the counter by its
    full effective length, truncated or not; when it is truncated, what is
    kept is shorter than what is counted. *)
Theorem counter_advances_by_effective_length :
  forall limit hasParent s count,
    count < limit ->
    snd (trimNode limit hasParent (Text s) count)
    = count + effective_length s
    /\ (limit < count + effective_length s ->
        exists kept,
          fst (trimNode limit hasParent (Text s) count) = Some (Text kept)
          /\ js_length kept = limit - count
          /\ js_length kept < effective_length s).
Proof.
  intros limit hp s count Hlt. rewrite trimNode_text by assumption.
  split; [reflexivity |]. intros Hover; simpl.
  replace (count + effective_length s >? limit) with true
    by (symmetry; apply Z.gtb_lt; lia).
  pose proof (effective_length_le s).
  eexists; split; [reflexivity |].
  rewrite js_length_firstn; lia.
Qed.

Lemma counter_advances_on_CD :
  snd (trimNode 3 true (Text (lit "CD")) 2) = 2 + effective_length (lit "CD")
  /\ (3 < 2 + effective_length (lit "CD") ->
      exists kept,
        fst (trimNode 3 true (Text (lit "CD")) 2) = Some (Text kept)
        /\ js_length kept = 3 - 2
        /\ js_length kept < effective_length (lit "CD")).
Proof.
  apply (counter_advances_by_effective_length 3 true (lit "CD") 2). lia.
Defined.

(** C5: a text node with a non-whitespace character, entered below the
    limit and reaching beyond it, is cut to the first [limit - count] code
    units of its content. *)
Theorem truncated_to_remaining_budget :
  forall limit hasParent s count,
    test_S s = true ->
    count < limit ->
    limit < count + effective_length s ->
    fst (trimNode limit hasParent (Text s) count)
    = Some (Text (firstn (Z.to_nat (limit - count)) s))
    /\ js_length (firstn (Z.to_nat (limit - count)) s) = limit - count
    /\ is_prefix (firstn (Z.to_nat (limit - count)) s) s.
Proof.
  intros limit hp s count _ Hlt Hover. rewrite trimNode_text by assumption.
  replace (count + effective_length s >? limit) with true
    by (symmetry; apply Z.gtb_lt; lia).
  pose proof (effective_length_le s).
  split; [reflexivity |]. split.
  - apply js_length_firstn; lia.
  - apply firstn_is_prefix.
Qed.

Lemma truncated_hello :
  fst (trimNode 5 true (Text (lit "Hello ")) 0) = Some (Text (lit "Hello"))
  /\ js_length (lit "Hello") = 5
  /\ is_prefix (lit "Hello") (lit "Hello ").
Proof.
  apply (truncated_to_remaining_budget 5 true (lit "Hello ") 0);
    [reflexivity | lia | vm_compute; reflexivity].
Defined.

(** ** Limits above the text of the tree *)

(** C6, as the code has it: a limit strictly above the total effective text
    length leaves the tree as it is. *)
Theorem unchanged_above_total :
  forall root rootHasParent limit,
    total_effective (texts root) < limit ->
    trimElementTextToCharLimit (JSNode root) rootHasParent limit
    = Normal (Some root, total_effective (texts root)).
Proof.
  intros root hp limit Habove.
  pose proof (total_effective_nonneg (texts root)).
  destruct (trim_below_limit root hp limit) as (o & c & Heq & Hw); [lia |].
  destruct (walks_unchanged limit) as [Hsame _].
  destruct (Hsame _ _ _ _ Hw) as [-> ->]; [lia |].
  now rewrite Heq.
Qed.

Lemma unchanged_scenario3 :
  trimElementTextToCharLimit (JSNode scenario3) true 7
  = Normal (Some scenario3, total_effective (texts scenario3)).
Proof.
  apply (unchanged_above_total scenario3 true 7). vm_compute; reflexivity.
Defined.

(** With a limit equal to the total, what follows the last counted text is
    removed: <div>AB<br></div> with limit 2 loses its <br>. *)
Lemma trailing_element_removed_at_total :
  total_effective (texts line_break_after_text) <= 2
  /\ trimElementTextToCharLimit (JSNode line_break_after_text) true 2
     = Normal (Some (el "div" [Text (lit "AB")]), 2)
  /\ el "div" [Text (lit "AB")] <> line_break_after_text.
Proof.
  split; [vm_compute; discriminate |].
  split; [reflexivity | discriminate].
Qed.

(** ** Exceptions *)

(** Detaching the remaining siblings never throws: they are nodes. *)
Lemma removeEach_returns : forall siblings ops,
    Throwing.removeEach siblings ops
    = Returns tt (ops ++ map OpRemove siblings).
Proof.
  induction siblings as [| sibling rest IH]; intros ops; simpl.
  - unfold ret. now rewrite app_nil_r.
  - unfold bind, read, perform. rewrite IH. now rewrite <- app_assoc.
Qed.

Lemma node_height_child : forall child children,
    In child children ->
    (node_height child <= list_max (map node_height children))%nat.
Proof.
  intros child children Hin.
  assert (Hall : Forall (fun k => (k <= list_max (map node_height children))%nat)
                        (map node_height children))
    by (apply list_max_le; lia).
  rewrite Forall_forall in Hall. apply Hall. now apply in_map.
Qed.

(** The loop, given that each visit of a child either returns what the walk
    returns or runs out of fuel in a child that is too deep. *)
Lemma someChild_outcome :
  forall limit (deep : Node -> Prop)
         (visit : JSValue -> Z -> Run (option Node * Z)) children,
    Forall (fun child =>
              forall count ops,
                (exists ops',
                    visit (JSNode child) count ops
                    = Returns (trimNode limit true child count) ops')
                \/ (visit (JSNode child) count ops = OutOfFuel /\ deep child))
           children ->
    forall count ops,
      (exists ops',
          Throwing.someChild limit visit children count ops
          = Returns (someChild limit (trimNode limit true) children count)
                    ops')
      \/ (Throwing.someChild limit visit children count ops = OutOfFuel
          /\ exists child, In child children /\ deep child).
Proof.
  intros limit deep visit children Hall.
  induction Hall as [| child siblings Hchild _ IH]; intros count ops; simpl.
  - left. now exists ops.
  - destruct (count >=? limit); [left; now exists ops |].
    unfold bind.
    destruct (Hchild count ops) as [(ops1 & ->) | [-> Hdeep]].
    2:{ right. split; [reflexivity |]. exists child. now split; [left |]. }
    destruct (trimNode limit true child count) as [child' count1]. simpl.
    destruct (count1 >=? limit).
    + rewrite removeEach_returns. left. eexists. reflexivity.
    + destruct (IH count1 ops1) as [(ops2 & ->) | [-> (c & Hin & Hdeep)]].
      * destruct (someChild limit (trimNode limit true) siblings count1).
        left. eexists. reflexivity.
      * right. split; [reflexivity |]. exists c. now split; [right |].
Qed.

(** One call on an element, below the limit: the loop over its children. *)
Lemma trimNode_element_step :
  forall limit fuel hasParent tag attrs children count ops,
    (count >=? limit) = false ->
    Throwing.trimNode limit (S fuel) hasParent
      (JSNode (Element tag attrs children)) count ops
    = match Throwing.someChild limit (Throwing.trimNode limit fuel true)
              children count ops with
      | Returns r ops' =>
          Returns (Some (Element tag attrs (fst r)), snd r) ops'
      | TypeError receiver property ops' => TypeError receiver property ops'
      | OutOfFuel => OutOfFuel
      end.
Proof.
  intros limit fuel hp tag attrs children count ops E.
  simpl. rewrite E. unfold bind, read, ret. simpl.
  now destruct (Throwing.someChild _ _ children count ops).
Qed.

(** On a node the walk with exceptions never throws: it returns what the
    walk returns, or runs out of fuel when the tree is deeper than the fuel
    given. *)
Lemma trimNode_outcome : forall limit fuel node hasParent count ops,
    (exists ops',
        Throwing.trimNode limit fuel hasParent (JSNode node) count ops
        = Returns (trimNode limit hasParent node count) ops')
    \/ (Throwing.trimNode limit fuel hasParent (JSNode node) count ops
        = OutOfFuel
        /\ (fuel <= node_height node)%nat).
Proof.
  intros limit fuel.
  induction fuel as [| fuel IH]; intros node hp count ops.
  - right. split; [reflexivity | lia].
  - destruct (count >=? limit) eqn:E.
    + left. simpl Throwing.trimNode. rewrite E.
      unfold bind, read, perform, ret.
      rewrite trimNode_exhausted
        by (rewrite Z.geb_leb in E; now apply Z.leb_le in E).
      eexists. reflexivity.
    + destruct node as [s | tag attrs children | k d].
      * left. simpl. rewrite E. unfold bind, read, perform, ret. simpl.
        destruct (count + js_length (if test_S s then s else []) >? limit);
          eexists; reflexivity.
      * rewrite trimNode_element_step by assumption.
        destruct (someChild_outcome limit
                    (fun child => (fuel <= node_height child)%nat)
                    (Throwing.trimNode limit fuel true) children)
          with (count := count) (ops := ops)
          as [(ops' & ->) | [-> (child & Hin & Hdeep)]].
        -- apply Forall_forall. intros child _ c o. apply IH.
        -- left. simpl. rewrite E.
           destruct (someChild limit (trimNode limit true) children count).
           eexists. reflexivity.
        -- right. split; [reflexivity |].
           apply node_height_child in Hin. simpl. lia.
      * left. simpl. rewrite E. unfold bind, read, ret.
        destruct k; eexists; reflexivity.
Qed.

(** C7, as the code has it: on a text, element, comment, CDATA or
    processing-instruction node the call throws nothing, whatever the limit:
    run with fuel for the depth of the tree it returns what the walk
    returns, and with less it still throws no TypeError. On null and on
    undefined it throws a TypeError at its first property read,
    [root.remove] when [limit <= 0] and [root.nodeType] otherwise, before
    any mutation of the DOM. *)
Theorem throws_only_on_null :
  forall root rootHasParent limit fuel,
    (value_height root < fuel)%nat ->
    match root with
    | JSNode n =>
        (exists ops,
            Throwing.trimElementTextToCharLimit fuel root rootHasParent limit
            = Returns (trimNode limit rootHasParent n 0) ops)
        /\ trimElementTextToCharLimit root rootHasParent limit
           = Normal (trimNode limit rootHasParent n 0)
        /\ forall fuel' receiver property ops,
            Throwing.trimElementTextToCharLimit fuel' root rootHasParent limit
            <> TypeError receiver property ops
    | _ =>
        Throwing.trimElementTextToCharLimit fuel root rootHasParent limit
        = TypeError root (if limit <=? 0 then prop_remove else prop_nodeType)
                    []
        /\ trimElementTextToCharLimit root rootHasParent limit
           = ThrowTypeError
    end.
Proof.
  intros root hp limit fuel Hfuel.
  assert (Hsite : (0 >=? limit) = (limit <=? 0)) by apply Z.geb_leb.
  destruct root as [| | n]; simpl in Hfuel.
  - destruct fuel as [| fuel]; [lia |].
    unfold Throwing.trimElementTextToCharLimit, trimElementTextToCharLimit.
    simpl. rewrite Hsite. now destruct (limit <=? 0).
  - destruct fuel as [| fuel]; [lia |].
    unfold Throwing.trimElementTextToCharLimit, trimElementTextToCharLimit.
    simpl. rewrite Hsite. now destruct (limit <=? 0).
  - unfold Throwing.trimElementTextToCharLimit. split; [| split].
    + destruct (trimNode_outcome limit fuel n hp 0 [])
        as [Hret | [_ Hshort]]; [assumption | lia].
    + reflexivity.
    + intros fuel' receiver property ops Hthrow.
      destruct (trimNode_outcome limit fuel' n hp 0 [])
        as [(ops' & Hret) | [Hout _]]; congruence.
Qed.

Lemma throws_only_on_null_scenario3 :
  (exists ops,
      Throwing.trimElementTextToCharLimit 3 (JSNode scenario3) true 3
      = Returns (trimNode 3 true scenario3 0) ops)
  /\ trimElementTextToCharLimit (JSNode scenario3) true 3
     = Normal (trimNode 3 true scenario3 0)
  /\ forall fuel' receiver property ops,
      Throwing.trimElementTextToCharLimit fuel' (JSNode scenario3) true 3
      <> TypeError receiver property ops.
Proof.
  apply (throws_only_on_null (JSNode scenario3) true 3 3). simpl. lia.
Defined.

(** The two places where a null root throws, and the mutations the walk
    performs on scenario 3. *)
Example null_root_throw_sites :
  Throwing.trimElementTextToCharLimit 1 JSNull true 0
  = TypeError JSNull prop_remove []
  /\ Throwing.trimElementTextToCharLimit 1 JSNull true 5
     = TypeError JSNull prop_nodeType []
  /\ Throwing.trimElementTextToCharLimit 3 (JSNode scenario3) true 3
     = Returns
         (Some (el "div" [Text (lit "AB"); el "span" [Text (lit "C")]]), 4)
         [OpSetTextContent (Text (lit "CD")) (lit "C");
          OpRemove (Text (lit "EF"))].
Proof. repeat split. Qed.

(** On null the call throws, for a limit of 0 as for any other. *)
Lemma null_root_throws :
  trimElementTextToCharLimit JSNull false 0 = ThrowTypeError
  /\ trimElementTextToCharLimit JSNull false 5 = ThrowTypeError.
Proof.
  split; reflexivity.
Qed.

(** ** Cost of the walk *)

Lemma cons_paths_under : forall (p : Path) i (rel : list Path),
    map (app (p ++ [i])) rel = map (app p) (map (cons i) rel).
Proof.
  intros p i rel. rewrite map_map. apply map_ext.
  intros q. now rewrite <- app_assoc.
Qed.

Lemma NoDup_map_cons : forall i (rel : list Path),
    NoDup rel -> NoDup (map (cons i) rel).
Proof.
  intros i rel Hnd. induction Hnd as [| q rel Hq _ IH]; simpl; constructor.
  - rewrite in_map_iff. intros (q' & [= ->] & Hin). contradiction.
  - assumption.
Qed.

Lemma child_paths_head : forall index child siblings q,
    node_at child q <> None ->
    child_paths index (child :: siblings) (index :: q).
Proof.
  intros index child siblings q Hq. exists 0%nat, q, child.
  rewrite Nat.add_0_r. now split.
Qed.

Lemma child_paths_tail : forall index child siblings q,
    child_paths (S index) siblings q ->
    child_paths index (child :: siblings) q.
Proof.
  intros index child siblings q (j & q' & c & -> & Hnth & Hat).
  exists (S j), q', c. split; [f_equal; lia | now split].
Qed.

(** The logged walk computes what the walk computes, and its log is a
    duplicate-free list of paths of the tree it was started on. *)
Lemma trimNodeLog_sound : forall limit node hasParent path count,
    exists rel,
      trimNodeLog limit hasParent path node count
      = (trimNode limit hasParent node count, map (app path) rel)
      /\ NoDup rel
      /\ (forall q, In q rel -> node_at node q <> None)
      /\ (List.length rel <= node_count node)%nat.
Proof.
  intros limit node.
  assert (Hleaf : forall n : Node,
             NoDup [@nil nat]
             /\ (forall q, In q [[]] -> node_at n q <> None)
             /\ (List.length [@nil nat] <= node_count n)%nat).
  { intros n. split; [repeat constructor; intros [] |]. split.
    - intros q [<- | []]; discriminate.
    - destruct n; simpl; lia. }
  induction node as [s | tag attrs children IH | k d] using Node_ind;
    intros hp path count.
  - exists [[]]. split; [| apply Hleaf].
    simpl. rewrite app_nil_r. now destruct (count >=? limit).
  - destruct (Z.lt_ge_cases count limit) as [Hlt | Hge].
    2:{ exists [[]]. split; [| apply Hleaf].
        simpl. rewrite app_nil_r. now rewrite geb_true. }
    assert (Hloop : forall index count,
               exists rel,
                 someChildLog limit
                   (fun i child c =>
                      trimNodeLog limit true (path ++ [i]) child c)
                   index children count
                 = (someChild limit (trimNode limit true) children count,
                    map (app path) rel)
                 /\ NoDup rel
                 /\ (forall q, In q rel -> child_paths index children q)
                 /\ (List.length rel
                     <= list_sum (map node_count children))%nat).
    { clear tag attrs count Hlt.
      induction IH as [| child siblings Hchild _ IHs]; intros index count.
      - exists []. repeat split; try constructor. intros q [].
      - simpl. destruct (count >=? limit).
        { exists []. repeat split; try constructor; [intros q [] | simpl; lia]. }
        destruct (Hchild true (path ++ [index]) count)
          as (rel1 & -> & Hnd1 & Hin1 & Hlen1).
        rewrite cons_paths_under.
        destruct (trimNode limit true child count) as [child' count1].
        assert (Hhead : forall q, In q (map (cons index) rel1) ->
                                  child_paths index (child :: siblings) q).
        { intros q (q' & <- & Hq')%in_map_iff.
          apply child_paths_head; auto. }
        destruct (count1 >=? limit).
        { exists (map (cons index) rel1). split; [reflexivity |].
          split; [now apply NoDup_map_cons |]. split; [assumption |].
          rewrite length_map. lia. }
        destruct (IHs (S index) count1) as (rel2 & -> & Hnd2 & Hin2 & Hlen2).
        destruct (someChild limit (trimNode limit true) siblings count1)
          as [rest count2].
        exists (map (cons index) rel1 ++ rel2).
        split; [now rewrite map_app |]. split; [| split].
        + apply NoDup_app; [now apply NoDup_map_cons | assumption |].
          intros q (q' & <- & _)%in_map_iff Hq.
          destruct (Hin2 _ Hq) as (j & q'' & c & [= E _] & _). lia.
        + intros q [Hq | Hq]%in_app_or; [now apply Hhead |].
          apply child_paths_tail; auto.
        + rewrite length_app, length_map. lia. }
    destruct (Hloop 0%nat count) as (rel & Heq & Hnd & Hin & Hlen).
    exists ([] :: rel). simpl. rewrite geb_false by assumption.
    rewrite Heq, app_nil_r.
    destruct (someChild limit (trimNode limit true) children count)
      as [children' count'].
    split; [reflexivity |]. split; [| split].
    + constructor; [| assumption].
      intros Hnil. destruct (Hin _ Hnil) as (j & q' & c & [=] & _).
    + intros q [<- | Hq]; [discriminate |].
      destruct (Hin _ Hq) as (j & q' & c & -> & Hnth & Hat).
      simpl. now rewrite Hnth.
    + simpl. lia.
  - exists [[]]. split; [| apply Hleaf].
    simpl. rewrite app_nil_r. now destruct (count >=? limit).
Qed.

(** C8: the call on a node returns, for every tree and every integer limit;
    [trimNode] is called at most once on a node, and only on nodes of the
    tree as it was, so at most [node_count root] times. *)
Theorem terminates_within_tree_size :
  forall root rootHasParent limit,
    exists out count' log,
      trimElementTextToCharLimit (JSNode root) rootHasParent limit
      = Normal (out, count')
      /\ trimNodeLog limit rootHasParent [] root 0 = (out, count', log)
      /\ NoDup log
      /\ (forall q, In q log -> node_at root q <> None)
      /\ (List.length log <= node_count root)%nat.
Proof.
  intros root hp limit.
  destruct (trimNodeLog_sound limit root hp [] 0)
    as (rel & Heq & Hnd & Hin & Hlen).
  change (map (app []) rel) with (map (fun q : Path => q) rel) in Heq.
  rewrite map_id in Heq.
  destruct (trimNode limit hp root 0) as [out count'] eqn:E.
  exists out, count', rel. unfold trimElementTextToCharLimit.
  rewrite E. auto.
Qed.

(** ** Frame of the call *)

Lemma pruned_refl : forall node, pruned node node.
Proof.
  induction node as [s | tag attrs children IH | k d] using Node_ind.
  - constructor; apply is_prefix_refl.
  - constructor. induction IH; now constructor.
  - constructor.
Qed.

Lemma pruned_children_length : forall children children',
    pruned_children children children' ->
    (List.length children' <= List.length children)%nat.
Proof.
  intros children children'; revert children.
  induction children' as [| c' cs' IH]; intros children Hp; simpl; [lia |].
  inversion Hp; subst; simpl. apply IH in H3. lia.
Qed.

(** Whatever the call leaves at the place of the root is the root, pruned. *)
Lemma trim_pruned : forall root rootHasParent limit out count',
    trimElementTextToCharLimit (JSNode root) rootHasParent limit
    = Normal (Some out, count') ->
    pruned root out.
Proof.
  intros root hp limit out count' Hrun.
  destruct (Z.lt_ge_cases 0 limit) as [Hpos | Hnonpos].
  - destruct (trim_below_limit root hp limit Hpos) as (o & c & Heq & Hw).
    rewrite Heq in Hrun. injection Hrun as <- _.
    destruct (walks_pruned limit) as [Hp _]. eapply Hp; eassumption.
  - unfold trimElementTextToCharLimit in Hrun.
    rewrite trimNode_exhausted in Hrun by assumption.
    destruct hp; simpl in Hrun; [discriminate |].
    injection Hrun as <- _. apply pruned_refl.
Qed.

(** C9: a text node left in the tree holds a prefix of the content the node
    at the same place had before the call. *)
Theorem retained_text_is_prefix :
  forall root rootHasParent limit out count' path s',
    trimElementTextToCharLimit (JSNode root) rootHasParent limit
    = Normal (Some out, count') ->
    node_at out path = Some (Text s') ->
    exists s, node_at root path = Some (Text s) /\ is_prefix s' s.
Proof.
  intros root hp limit out count' path s' Hrun Hat.
  apply trim_pruned in Hrun.
  destruct (pruned_node_at _ _ _ _ Hrun Hat) as (n & Hn & Hp).
  inversion Hp; subst. now exists s.
Qed.

Lemma retained_text_scenario3 :
  exists s,
    node_at scenario3 [1; 0]%nat = Some (Text s)
    /\ is_prefix (lit "C") s.
Proof.
  apply (retained_text_is_prefix scenario3 true 3
           (el "div" [Text (lit "AB"); el "span" [Text (lit "C")]]) 4);
    reflexivity.
Defined.

(** C10: the tree left by the call is the original with nodes detached and
    text contents cut; it has no more nodes, and every element of it is the
    element at the same place in the original, with its tag name and its
    attributes, and no more children. *)
Theorem only_detaches_and_shortens :
  forall root rootHasParent limit out count',
    trimElementTextToCharLimit (JSNode root) rootHasParent limit
    = Normal (Some out, count') ->
    pruned root out
    /\ (node_count out <= node_count root)%nat
    /\ (forall path tag attrs children',
           node_at out path = Some (Element tag attrs children') ->
           exists children,
             node_at root path = Some (Element tag attrs children)
             /\ (List.length children' <= List.length children)%nat).
Proof.
  intros root hp limit out count' Hrun.
  apply trim_pruned in Hrun.
  split; [assumption |]. split.
  - now apply pruned_node_count.
  - intros path tag attrs children' Hat.
    destruct (pruned_node_at _ _ _ _ Hrun Hat) as (n & Hn & Hp).
    inversion Hp; subst. exists children. split; [assumption |].
    now apply pruned_children_length.
Qed.

Lemma only_detaches_scenario3 :
  pruned scenario3 (el "div" [Text (lit "AB"); el "span" [Text (lit "C")]])
  /\ (node_count (el "div" [Text (lit "AB"); el "span" [Text (lit "C")]])
      <= node_count scenario3)%nat
  /\ (forall path tag attrs children',
         node_at (el "div" [Text (lit "AB"); el "span" [Text (lit "C")]]) path
         = Some (Element tag attrs children') ->
         exists children,
           node_at scenario3 path = Some (Element tag attrs children)
           /\ (List.length children' <= List.length children)%nat).
Proof.
  apply (only_detaches_and_shortens scenario3 true 3 _ 4). reflexivity.
Defined.

(** ** More on the walk *)

(** A derivation is a run of the function. *)
Lemma walks_trimNode :
  forall limit,
    (forall node count out count',
        walks limit node count out count' ->
        forall hasParent,
          trimNode limit hasParent node count = (Some out, count'))
    /\ (forall children count children' count',
           walks_children limit children count children' count' ->
           someChild limit (trimNode limit true) children count
           = (children', count')).
Proof.
  walk_induction.
  - now apply trimNode_text.
  - rewrite geb_false by assumption. simpl in H1. now rewrite H1.
  - now rewrite geb_false.
  - reflexivity.
  - apply walks_counter in H. rewrite geb_false by lia.
    rewrite H0. now rewrite geb_true.
  - apply walks_counter in H. rewrite geb_false by lia.
    rewrite H0. rewrite geb_false by assumption. now rewrite H3.
Qed.

(** A walk that ends below the limit has changed nothing. *)
Lemma walks_below :
  forall limit,
    (forall node count out count',
        walks limit node count out count' ->
        count' < limit ->
        out = node /\ count' = count + total_effective (texts node))
    /\ (forall children count children' count',
           walks_children limit children count children' count' ->
           count' < limit ->
           children' = children
           /\ count' = count + total_effective (flat_map texts children)).
Proof.
  walk_induction.
  - unfold total_effective; simpl.
    replace (count + effective_length s >? limit) with false.
    + split; [reflexivity | lia].
    + symmetry; rewrite Z.gtb_ltb; apply Z.ltb_ge; lia.
  - destruct H1 as [-> ->]; [assumption | now split].
  - unfold total_effective; simpl; split; [reflexivity | lia].
  - unfold total_effective; simpl; split; [reflexivity | lia].
  - lia.
  - rewrite total_effective_app.
    destruct H3 as [-> ->]; [assumption |].
    destruct H0 as [-> ->]; [assumption |].
    split; [reflexivity | lia].
Qed.

(** Walking the result again, from a counter that is no further, changes
    nothing more. *)
Lemma walks_again :
  forall limit,
    (forall node count out count',
        walks limit node count out count' ->
        forall start, start <= count ->
                  exists d', walks limit out start out d' /\ d' <= count')
    /\ (forall children count children' count',
           walks_children limit children count children' count' ->
           forall start, start <= count ->
                     exists d',
                       walks_children limit children' start children' d'
                       /\ d' <= count').
Proof.
  walk_induction.
  - set (out := if count + effective_length s >? limit
                then firstn (Z.to_nat (limit - count)) s else s).
    assert (Hfit : start + effective_length out <= limit
                   /\ start + effective_length out <= count + effective_length s).
    { pose proof (effective_length_le s).
      subst out. destruct (count + effective_length s >? limit) eqn:E.
      - apply Z.gtb_lt in E.
        pose proof (effective_length_le (firstn (Z.to_nat (limit - count)) s)).
        rewrite js_length_firstn in * by lia. lia.
      - rewrite Z.gtb_ltb in E. apply Z.ltb_ge in E. lia. }
    assert (Hd : start < limit) by lia.
    pose proof (walks_text limit out start Hd) as Hw.
    replace (start + effective_length out >? limit) with false in Hw
      by (symmetry; rewrite Z.gtb_ltb; apply Z.ltb_ge; lia).
    exists (start + effective_length out). split; [assumption | lia].
  - destruct (H1 start H2) as (d' & Hw & Hle).
    exists d'. split; [constructor; [lia | assumption] | assumption].
  - exists start. split; [constructor; lia | lia].
  - exists start. split; [constructor; lia | lia].
  - destruct (H0 start H2) as (d1 & Hw & Hle).
    exists d1. split; [| assumption].
    destruct (Z.lt_ge_cases d1 limit).
    + eapply walks_next; [eassumption | assumption | now constructor].
    + eapply walks_last; eassumption.
  - destruct (H0 start H4) as (d1 & Hw1 & Hle1).
    destruct (H3 d1 Hle1) as (d2 & Hw2 & Hle2).
    exists d2. split; [| assumption].
    eapply walks_next; [eassumption | lia | assumption].
Qed.

(** X1: the call is idempotent: on the tree it has left, a second call with the
    same limit changes nothing, and counts no more than the first. *)
Theorem trim_idempotent :
  forall root rootHasParent limit out count',
    trimElementTextToCharLimit (JSNode root) rootHasParent limit
    = Normal (Some out, count') ->
    exists count2,
      trimElementTextToCharLimit (JSNode out) rootHasParent limit
      = Normal (Some out, count2)
      /\ count2 <= count'.
Proof.
  intros root hp limit out count' Hrun.
  destruct (Z.lt_ge_cases 0 limit) as [Hpos | Hnonpos].
  - destruct (trim_below_limit root hp limit Hpos) as (o & c & Heq & Hw).
    rewrite Heq in Hrun. injection Hrun as <- <-.
    destruct (walks_again limit) as [Hagain _].
    destruct (Hagain _ _ _ _ Hw 0 (Z.le_refl 0)) as (d' & Hw' & Hle).
    exists d'. split; [| assumption].
    unfold trimElementTextToCharLimit.
    destruct (walks_trimNode limit) as [Hrun' _].
    now rewrite (Hrun' _ _ _ _ Hw' hp).
  - unfold trimElementTextToCharLimit in *.
    rewrite trimNode_exhausted in Hrun by assumption.
    injection Hrun as Hout <-.
    destruct hp; simpl in Hout; [discriminate |]. injection Hout as <-.
    exists 0. rewrite trimNode_exhausted by assumption. split; [reflexivity | lia].
Qed.

Lemma trim_idempotent_scenario3 :
  exists count2,
    trimElementTextToCharLimit
      (JSNode (el "div" [Text (lit "AB"); el "span" [Text (lit "C")]])) true 3
    = Normal (Some (el "div" [Text (lit "AB"); el "span" [Text (lit "C")]]),
              count2)
    /\ count2 <= 4.
Proof.
  apply (trim_idempotent scenario3 true 3). reflexivity.
Defined.

(** X2: the root is removed exactly when the limit is not positive and the root
    has a parent; with a positive limit it stays, whatever it holds. *)
Theorem root_removed_iff :
  forall root rootHasParent limit,
    (exists count',
        trimElementTextToCharLimit (JSNode root) rootHasParent limit
        = Normal (None, count'))
    <-> limit <= 0 /\ rootHasParent = true.
Proof.
  intros root hp limit. split.
  - intros (count' & Hrun).
    destruct (Z.lt_ge_cases 0 limit) as [Hpos | Hnonpos].
    + destruct (trim_below_limit root hp limit Hpos) as (o & c & Heq & _).
      rewrite Heq in Hrun. discriminate.
    + split; [assumption |].
      unfold trimElementTextToCharLimit in Hrun.
      rewrite trimNode_exhausted in Hrun by assumption.
      destruct hp; [reflexivity | discriminate].
  - intros [Hnonpos ->]. exists 0.
    unfold trimElementTextToCharLimit.
    now rewrite trimNode_exhausted by assumption.
Qed.

Lemma effective_length_pos_test : forall s,
    0 < effective_length s -> test_S s = true.
Proof.
  intros s; unfold effective_length. destruct (test_S s); [reflexivity | lia].
Qed.

(** The text nodes of the result are the first text nodes of the input, all
    of them whole except, at most, the last one kept. *)
Lemma walks_texts :
  forall limit,
    (forall node count out count',
        walks limit node count out count' ->
        (exists post, texts node = texts out ++ post)
        \/ (exists pre s s' post,
               texts node = pre ++ s :: post
               /\ texts out = pre ++ [s']
               /\ test_S s = true
               /\ is_prefix s' s
               /\ js_length s' < js_length s))
    /\ (forall children count children' count',
           walks_children limit children count children' count' ->
           (exists post,
               flat_map texts children = flat_map texts children' ++ post)
           \/ (exists pre s s' post,
                  flat_map texts children = pre ++ s :: post
                  /\ flat_map texts children' = pre ++ [s']
                  /\ test_S s = true
                  /\ is_prefix s' s
                  /\ js_length s' < js_length s)).
Proof.
  walk_induction.
  - destruct (count + effective_length s >? limit) eqn:E.
    + apply Z.gtb_lt in E. right. exists [], s, (firstn (Z.to_nat (limit - count)) s), [].
      pose proof (effective_length_le s).
      repeat split; try reflexivity.
      * apply effective_length_pos_test; lia.
      * apply firstn_is_prefix.
      * rewrite js_length_firstn; lia.
    + left. now exists [].
  - assumption.
  - left. now exists [].
  - left. now exists [].
  - rewrite app_nil_r. destruct H0 as [(post & ->) | Hcut].
    + left. eexists. now rewrite <- app_assoc.
    + destruct Hcut as (pre & s & s' & post & -> & -> & Hs & Hp & Hlen).
      right. exists pre, s, s', (post ++ flat_map texts siblings).
      repeat split; trivial. now rewrite <- app_assoc.
  - destruct (walks_below limit) as [Hsame _].
    destruct (Hsame _ _ _ _ H H1) as [-> _].
    destruct H3 as [(post & ->) | Hcut].
    + left. exists post. now rewrite app_assoc.
    + destruct Hcut as (pre & s & s' & post & -> & -> & Hs & Hp & Hlen).
      right. exists (texts child ++ pre), s, s', post.
      repeat split; trivial; now rewrite <- app_assoc.
Qed.

(** X3: at most one text node is cut, and it is the last text node kept: every
    text node before it is whole, every text node after it is gone, and it
    held a non-whitespace character. *)
Theorem only_last_text_cut :
  forall root rootHasParent limit out count',
    trimElementTextToCharLimit (JSNode root) rootHasParent limit
    = Normal (Some out, count') ->
    (exists post, texts root = texts out ++ post)
    \/ (exists pre s s' post,
           texts root = pre ++ s :: post
           /\ texts out = pre ++ [s']
           /\ test_S s = true
           /\ is_prefix s' s
           /\ js_length s' < js_length s).
Proof.
  intros root hp limit out count' Hrun.
  destruct (Z.lt_ge_cases 0 limit) as [Hpos | Hnonpos].
  - destruct (trim_below_limit root hp limit Hpos) as (o & c & Heq & Hw).
    rewrite Heq in Hrun. injection Hrun as <- _.
    destruct (walks_texts limit) as [Htexts _]. eapply Htexts; eassumption.
  - unfold trimElementTextToCharLimit in Hrun.
    rewrite trimNode_exhausted in Hrun by assumption.
    injection Hrun as Hout _.
    destruct hp; simpl in Hout; [discriminate |]. injection Hout as <-.
    left. exists []. now rewrite app_nil_r.
Qed.

Lemma only_last_text_cut_scenario3 :
  (exists post,
      texts scenario3
      = texts (el "div" [Text (lit "AB"); el "span" [Text (lit "C")]]) ++ post)
  \/ (exists pre s s' post,
         texts scenario3 = pre ++ s :: post
         /\ texts (el "div" [Text (lit "AB"); el "span" [Text (lit "C")]])
            = pre ++ [s']
         /\ test_S s = true
         /\ is_prefix s' s
         /\ js_length s' < js_length s).
Proof.
  apply (only_last_text_cut scenario3 true 3 _ 4). reflexivity.
Defined.

Lemma is_prefix_app_r : forall (a b c : DOMString),
    is_prefix a b -> is_prefix a (b ++ c).
Proof.
  intros a b c [rest ->]. exists (rest ++ c). now rewrite app_assoc.
Qed.

Lemma is_prefix_app_l : forall (a b c : DOMString),
    is_prefix b c -> is_prefix (a ++ b) (a ++ c).
Proof.
  intros a b c [rest ->]. exists rest. now rewrite app_assoc.
Qed.

Lemma walks_descendant_text :
  forall limit,
    (forall node count out count',
        walks limit node count out count' ->
        is_prefix (descendant_text out) (descendant_text node))
    /\ (forall children count children' count',
           walks_children limit children count children' count' ->
           is_prefix (flat_map descendant_text children')
                     (flat_map descendant_text children)).
Proof.
  walk_induction.
  - destruct (count + effective_length s >? limit).
    + apply firstn_is_prefix.
    + apply is_prefix_refl.
  - assumption.
  - apply is_prefix_refl.
  - apply is_prefix_refl.
  - rewrite app_nil_r. now apply is_prefix_app_r.
  - destruct (walks_below limit) as [Hsame _].
    destruct (Hsame _ _ _ _ H H1) as [-> _].
    now apply is_prefix_app_l.
Qed.

(** X4: what [root.textContent] reads after the call is a prefix of what it
    read before. *)
Theorem textContent_is_prefix :
  forall root rootHasParent limit out count',
    trimElementTextToCharLimit (JSNode root) rootHasParent limit
    = Normal (Some out, count') ->
    is_prefix (textContent out) (textContent root).
Proof.
  intros root hp limit out count' Hrun.
  destruct (Z.lt_ge_cases 0 limit) as [Hpos | Hnonpos].
  - destruct (trim_below_limit root hp limit Hpos) as (o & c & Heq & Hw).
    rewrite Heq in Hrun. injection Hrun as <- _.
    destruct (walks_descendant_text limit) as [Hp _].
    specialize (Hp _ _ _ _ Hw).
    inversion Hw; subst; simpl in *;
      assumption || apply is_prefix_refl.
  - unfold trimElementTextToCharLimit in Hrun.
    rewrite trimNode_exhausted in Hrun by assumption.
    injection Hrun as Hout _.
    destruct hp; simpl in Hout; [discriminate |]. injection Hout as <-.
    apply is_prefix_refl.
Qed.

Lemma textContent_is_prefix_scenario3 :
  is_prefix (lit "ABC") (lit "ABCDEF").
Proof.
  apply (textContent_is_prefix scenario3 true 3
           (el "div" [Text (lit "AB"); el "span" [Text (lit "C")]]) 4).
  reflexivity.
Defined.

(** What is kept is not less than what was counted, up to the limit. *)
Lemma walks_kept :
  forall limit,
    (forall node count out count',
        walks limit node count out count' ->
        Z.min count' limit - count <= total_length (texts out))
    /\ (forall children count children' count',
           walks_children limit children count children' count' ->
           Z.min count' limit - count
           <= total_length (flat_map texts children')).
Proof.
  walk_induction.
  - pose proof (effective_length_le s) as Hle.
    pose proof (effective_length_nonneg s) as Hge.
    unfold total_length; simpl.
    destruct (count + effective_length s >? limit) eqn:E.
    + apply Z.gtb_lt in E. rewrite js_length_firstn by lia. lia.
    + rewrite Z.gtb_ltb in E. apply Z.ltb_ge in E. lia.
  - assumption.
  - unfold total_length; simpl; lia.
  - unfold total_length; simpl; lia.
  - now rewrite app_nil_r.
  - rewrite total_length_app. lia.
Qed.

(** X5: the call does not cut more than it must: a tree with at least [limit]
    counted characters keeps at least [limit] characters, and no more than
    the whitespace-only text of the input on top of them. *)
Theorem keeps_up_to_the_limit :
  forall root rootHasParent limit,
    0 < limit ->
    limit <= total_effective (texts root) ->
    exists out count',
      trimElementTextToCharLimit (JSNode root) rootHasParent limit
      = Normal (Some out, count')
      /\ limit <= count'
      /\ limit <= total_length (texts out)
         <= limit + whitespace_total (texts root).
Proof.
  intros root hp limit Hpos Htotal.
  destruct (trim_below_limit root hp limit Hpos) as (out & c & Heq & Hw).
  exists out, c. split; [assumption |].
  assert (Hc : limit <= c).
  { destruct (Z.lt_ge_cases c limit) as [Hlt | Hge]; [| assumption].
    destruct (walks_below limit) as [Hsame _].
    destruct (Hsame _ _ _ _ Hw Hlt) as [_ ->]. lia. }
  split; [assumption |].
  destruct (walks_kept limit) as [Hkept _]. specialize (Hkept _ _ _ _ Hw).
  destruct (walks_budget limit) as [Hbudget _].
  destruct (Hbudget _ _ _ _ Hw) as [_ Hupper]. lia.
Qed.

Lemma keeps_up_to_the_limit_scenario3 :
  exists out count',
    trimElementTextToCharLimit (JSNode scenario3) true 3
    = Normal (Some out, count')
    /\ 3 <= count'
    /\ 3 <= total_length (texts out) <= 3 + whitespace_total (texts scenario3).
Proof.
  apply (keeps_up_to_the_limit scenario3 true 3); [lia |].
  vm_compute; discriminate.
Defined.

Lemma kept_nonempty_refl : forall n, kept_nonempty n n.
Proof. intros [s | tag attrs children | k d]; simpl; auto. Qed.

Lemma walks_kept_nonempty :
  forall limit,
    (forall node count out count',
        walks limit node count out count' ->
        forall path n',
          node_at out path = Some n' ->
          exists n, node_at node path = Some n /\ kept_nonempty n n')
    /\ (forall children count children' count',
           walks_children limit children count children' count' ->
           (children <> [] -> children' <> [])
           /\ forall i child' path n',
               nth_error children' i = Some child' ->
               node_at child' path = Some n' ->
               exists child n,
                 nth_error children i = Some child
                 /\ node_at child path = Some n
                 /\ kept_nonempty n n').
Proof.
  walk_induction.
  - destruct path; simpl in H0; [| discriminate]. injection H0 as <-.
    exists (Text s). split; [reflexivity |]. simpl.
    destruct (count + effective_length s >? limit); [| trivial].
    destruct s as [| c s]; [congruence |]. intros _.
    destruct (Z.to_nat (limit - count)) eqn:E; [lia | discriminate].
  - destruct H1 as [Hne Hsub]. destruct path as [| i path]; simpl in *.
    + injection H2 as <-. eexists; split; [reflexivity |]. simpl. auto.
    + destruct (nth_error children' i) as [child' |] eqn:E;
        [| discriminate].
      destruct (Hsub _ _ _ _ E H2) as (child & n & -> & Hat & Hk).
      now exists n.
  - destruct path; simpl in H0; [| discriminate]. injection H0 as <-.
    exists (CharData k d). split; [reflexivity |]. simpl. auto.
  - split; [auto |]. intros [| i]; discriminate.
  - split; [discriminate |]. intros [| [| i]] child'' path n' Hnth Hat;
      try discriminate.
    injection Hnth as <-.
    destruct (H0 _ _ Hat) as (n & Hn & Hk). now exists child, n.
  - destruct H3 as [_ Hsub]. split; [discriminate |].
    intros [| i] child'' path n' Hnth Hat; simpl in *.
    + injection Hnth as <-.
      destruct (H0 _ _ Hat) as (n & Hn & Hk). now exists child, n.
    + eapply Hsub; eassumption.
Qed.

(** X6: the call never empties what it keeps: a kept text node that had content
    still has some, a kept element that had children still has its first
    one (and its tag name and attributes). *)
Theorem kept_nodes_not_emptied :
  forall root rootHasParent limit out count' path n',
    trimElementTextToCharLimit (JSNode root) rootHasParent limit
    = Normal (Some out, count') ->
    node_at out path = Some n' ->
    exists n, node_at root path = Some n /\ kept_nonempty n n'.
Proof.
  intros root hp limit out count' path n' Hrun Hat.
  destruct (Z.lt_ge_cases 0 limit) as [Hpos | Hnonpos].
  - destruct (trim_below_limit root hp limit Hpos) as (o & c & Heq & Hw).
    rewrite Heq in Hrun. injection Hrun as <- _.
    destruct (walks_kept_nonempty limit) as [Hk _]. eapply Hk; eassumption.
  - unfold trimElementTextToCharLimit in Hrun.
    rewrite trimNode_exhausted in Hrun by assumption.
    injection Hrun as Hout _.
    destruct hp; simpl in Hout; [discriminate |]. injection Hout as <-.
    exists n'. split; [assumption | apply kept_nonempty_refl].
Qed.

Lemma kept_nodes_not_emptied_scenario3 :
  exists n,
    node_at scenario3 [1; 0]%nat = Some n
    /\ kept_nonempty n (Text (lit "C")).
Proof.
  apply (kept_nodes_not_emptied scenario3 true 3
           (el "div" [Text (lit "AB"); el "span" [Text (lit "C")]]) 4);
    reflexivity.
Defined.

(** ** Asset paths *)

(** A middle part is cut out by a slice from the length of what precedes it
    to minus the length of what follows. *)
Lemma js_slice_middle : forall a b c : DOMString,
    c <> [] ->
    js_slice (a ++ b ++ c) (js_length a) (- js_length c) = b.
Proof.
  intros a b c Hc. unfold js_slice, relative_index, js_length.
  assert (0 < List.length c)%nat by (destruct c; [congruence | simpl; lia]).
  rewrite !length_app.
  destruct (Z.of_nat (List.length a) <? 0) eqn:E1;
    [apply Z.ltb_lt in E1; lia |].
  destruct (- Z.of_nat (List.length c) <? 0) eqn:E2;
    [| apply Z.ltb_ge in E2; lia].
  rewrite Z.min_l, Z.max_l, Z.max_l by lia.
  rewrite Nat2Z.id.
  replace (Z.to_nat _) with (List.length b) by lia.
  rewrite skipn_app, skipn_all, Nat.sub_diag. simpl.
  rewrite firstn_app, firstn_all, Nat.sub_diag. simpl. apply app_nil_r.
Qed.

(** X7: the path is read back from both results: it is what follows the base
    path, and in the CSS form what stands between ["url(" + base] and the
    closing parenthesis; so neither function confuses two paths. *)
Theorem asset_path_round_trip :
  forall codeBasePath path,
    js_slice (getAssetPath codeBasePath path)
             (js_length codeBasePath)
             (js_length (getAssetPath codeBasePath path))
    = path
    /\ js_slice (getCSSAssetPath codeBasePath path)
                (4 + js_length codeBasePath) (-1)
       = path.
Proof.
  intros base path. split.
  - unfold getAssetPath, js_slice, relative_index, js_length.
    rewrite length_app.
    destruct (Z.of_nat (List.length base) <? 0) eqn:E1;
      [apply Z.ltb_lt in E1; lia |].
    destruct (Z.of_nat (List.length base + List.length path) <? 0) eqn:E2;
      [apply Z.ltb_lt in E2; lia |].
    rewrite !Z.min_l, Z.max_l by lia. rewrite Nat2Z.id.
    replace (Z.to_nat _) with (List.length path) by lia.
    rewrite skipn_app, skipn_all, Nat.sub_diag. simpl. apply firstn_all.
  - unfold getCSSAssetPath.
    change (4 + js_length base) with (js_length (lit "url(") + js_length base).
    replace (js_length (lit "url(") + js_length base)
      with (js_length (lit "url(" ++ base))
      by (unfold js_length; rewrite length_app; lia).
    change (-1) with (- js_length (lit ")")).
    rewrite (app_assoc (lit "url(") base).
    apply js_slice_middle. discriminate.
Qed.

(** ** getNewElem *)

Lemma trimStart_blank : forall s, test_S s = false -> trimStart s = [].
Proof.
  induction s as [| c s IH]; simpl; [reflexivity |].
  intros [Hc Hs]%orb_false_elim. apply negb_false_iff in Hc.
  rewrite Hc. auto.
Qed.

Lemma trimStart_test_S : forall s, test_S (trimStart s) = test_S s.
Proof.
  induction s as [| c s IH]; simpl; [reflexivity |].
  destruct (is_whitespace c) eqn:E; simpl; [assumption | now rewrite E].
Qed.

Lemma trimStart_nil : forall s, trimStart s = [] -> test_S s = false.
Proof.
  intros s H. rewrite <- trimStart_test_S, H. reflexivity.
Qed.

Lemma test_S_rev : forall s, test_S (rev s) = test_S s.
Proof.
  intros s. unfold test_S.
  destruct (existsb _ s) eqn:E.
  - apply existsb_exists in E as (c & Hin & Hc).
    apply existsb_exists. exists c. split; [now apply in_rev in Hin | assumption].
  - destruct (existsb _ (rev s)) eqn:E'; [| reflexivity].
    apply existsb_exists in E' as (c & Hin & Hc).
    apply in_rev in Hin.
    assert (existsb (fun c => negb (is_whitespace c)) s = true)
      by (apply existsb_exists; now exists c).
    congruence.
Qed.

(** [s.trim() !== ''] is the test [/\S/]. *)
Lemma trim_not_empty : forall s, negb (is_empty (js_trim s)) = test_S s.
Proof.
  intros s. unfold js_trim. destruct (test_S s) eqn:E.
  - destruct (rev (trimStart (rev (trimStart s)))) eqn:R; [| reflexivity].
    apply (f_equal (@rev CodeUnit)) in R. rewrite rev_involutive in R.
    simpl in R. apply trimStart_nil in R.
    rewrite test_S_rev, trimStart_test_S in R. congruence.
  - now rewrite (trimStart_blank s E).
Qed.

(** An element is empty for [getNewElem] when its text is blank and it holds
    no picture. *)
Lemma has_content_false : forall divElm,
    has_content divElm = false
    <-> test_S (textContent divElm) = false
        /\ querySelector (lit "picture") divElm = None.
Proof.
  intros divElm. unfold has_content. rewrite trim_not_empty.
  destruct (test_S (textContent divElm));
    destruct (querySelector (lit "picture") divElm); simpl;
    split; try tauto; try discriminate; intros [? ?]; discriminate.
Qed.

(** The loop on items: it does not throw, and pushes one field for each
    element. *)
Lemma forEachArg_item : forall args fieldElements allNulls,
    Forall (fun a => is_element a = true) args ->
    forEachArg true args (fieldElements, allNulls)
    = Normal
        (fieldElements
         ++ map (fun a =>
                   field_of a (fun a => item0 (children_of (child_nodes a))))
                args,
         allNulls && forallb (fun a => negb (has_content a)) args).
Proof.
  induction args as [| a args IH]; intros fields allNulls Hall.
  - simpl. now rewrite app_nil_r, andb_true_r.
  - inversion Hall as [| ? ? Ha Hargs]; subst.
    destruct a as [s | tag attrs childNodes | k d]; try discriminate.
    simpl forEachArg. unfold visitArg, field_of.
    destruct (has_content (Element tag attrs childNodes)) eqn:E.
    + simpl targetDiv. rewrite IH by assumption. simpl. rewrite E. simpl.
      now rewrite <- app_assoc, andb_false_r.
    + rewrite IH by assumption. simpl. rewrite E. simpl.
      now rewrite <- app_assoc.
Qed.

(** The loop over empty elements, on items and on blocks alike. *)
Lemma forEachArg_empty : forall isItem args fieldElements allNulls,
    Forall (fun a => is_element a = true /\ has_content a = false) args ->
    forEachArg isItem args (fieldElements, allNulls)
    = Normal (fieldElements ++ map (fun _ => JSNull) args, allNulls).
Proof.
  induction args as [| a args IH]; intros fields allNulls Hall.
  - simpl. now rewrite app_nil_r.
  - inversion Hall as [| ? ? [Ha Hempty] Hargs]; subst.
    destruct a as [s | tag attrs childNodes | k d]; try discriminate.
    simpl forEachArg. unfold visitArg. rewrite Hempty.
    rewrite IH by assumption. simpl. now rewrite <- app_assoc.
Qed.

(** X8: when every element passed is empty (blank text, no picture), the result
    is null: the callback is not called and nothing is thrown, on an item
    and on a block. *)
Theorem getNewElem_all_empty :
  forall (R : Type) (args : list Argument) (callback : list JSValue -> R),
    Forall (fun a =>
              is_element (elm a) = true
              /\ test_S (textContent (elm a)) = false
              /\ querySelector (lit "picture") (elm a) = None) args ->
    getNewElem args callback = Normal None.
Proof.
  intros R args callback Hall. unfold getNewElem.
  destruct (match args with a :: _ => parentElement a | [] => None end)
    as [blockDivElm |]; [| reflexivity].
  rewrite forEachArg_empty; [reflexivity |].
  apply Forall_map. eapply Forall_impl; [| exact Hall].
  intros a (Ha & Htext & Hpic). split; [assumption |].
  now apply has_content_false.
Qed.

Lemma getNewElem_all_empty_example :
  getNewElem
    [{| elm := el "div" [el "div" [Text (lit "  ")]];
        parentElement := Some (el "div" []) |}]
    (fun fields => List.length fields)
  = Normal None.
Proof.
  apply getNewElem_all_empty. repeat constructor.
Defined.

Lemma forallb_on_map : forall (A B : Type) (f : B -> bool) (g : A -> B) l,
    forallb f (map g l) = forallb (fun a => f (g a)) l.
Proof.
  induction l as [| a l IH]; simpl; [reflexivity | now rewrite IH].
Qed.

Lemma existsb_on_map : forall (A B : Type) (f : B -> bool) (g : A -> B) l,
    existsb f (map g l) = existsb (fun a => f (g a)) l.
Proof.
  induction l as [| a l IH]; simpl; [reflexivity | now rewrite IH].
Qed.

(** X9: on an item (a parent without [data-block-name]) the call never throws
    for elements; unless all of them are empty the callback gets one field
    for each element, in order, and the parent last. The field is null for
    an empty element and its first element child otherwise. *)
Theorem getNewElem_item :
  forall (R : Type) (args : list Argument) (callback : list JSValue -> R)
         first blockDivElm,
    hd_error args = Some first ->
    parentElement first = Some blockDivElm ->
    dataset_blockName blockDivElm = None ->
    Forall (fun a => is_element (elm a) = true) args ->
    getNewElem args callback
    = Normal
        (if forallb (fun a => negb (has_content (elm a))) args then None
         else
           Some (callback
                   (map (fun a =>
                           if has_content (elm a)
                           then item0 (children_of (child_nodes (elm a)))
                           else JSNull) args
                    ++ [JSNode blockDivElm]))).
Proof.
  intros R args callback first blockDivElm Hfirst Hparent Hitem Hall.
  unfold getNewElem.
  destruct args as [| a args]; [discriminate |].
  injection Hfirst as ->. rewrite Hparent, Hitem.
  rewrite forEachArg_item by (now apply Forall_map).
  rewrite forallb_on_map, map_map. rewrite andb_true_l, app_nil_l.
  unfold field_of. now destruct (forallb _ (first :: args)).
Qed.

Lemma getNewElem_item_example :
  getNewElem
    [{| elm := el "div" [el "p" [Text (lit "Title")]];
        parentElement := Some (el "li" []) |};
     {| elm := el "div" [];
        parentElement := Some (el "li" []) |}]
    (fun fields => fields)
  = Normal (Some [JSNode (el "p" [Text (lit "Title")]); JSNull;
                  JSNode (el "li" [])]).
Proof.
  refine (getNewElem_item _
            [{| elm := el "div" [el "p" [Text (lit "Title")]];
                parentElement := Some (el "li" []) |};
             {| elm := el "div" [];
                parentElement := Some (el "li" []) |}]
            (fun fields => fields) _ (el "li" [])
            eq_refl eq_refl eq_refl _).
  repeat constructor.
Defined.

Lemma children_of_head : forall childNodes c rest,
    children_of childNodes = c :: rest ->
    exists tag attrs inner, c = Element tag attrs inner.
Proof.
  intros childNodes c rest H.
  assert (Hin : In c (children_of childNodes)) by (rewrite H; now left).
  apply filter_In in Hin as [_ Hc].
  destruct c as [s | tag attrs inner | k d]; try discriminate.
  now exists tag, attrs, inner.
Qed.

(** The loop on a block: it throws at the first element with content and no
    element child, and otherwise pushes one field for each element. *)
Lemma forEachArg_block : forall args fieldElements allNulls,
    Forall (fun a => is_element a = true) args ->
    forEachArg false args (fieldElements, allNulls)
    = if existsb lacks_wrapper args then ThrowTypeError
      else Normal
             (fieldElements ++ map (fun a => field_of a block_target) args,
              allNulls && forallb (fun a => negb (has_content a)) args).
Proof.
  induction args as [| a args IH]; intros fields allNulls Hall.
  - simpl. now rewrite app_nil_r, andb_true_r.
  - inversion Hall as [| ? ? Ha Hargs]; subst.
    destruct a as [s | tag attrs childNodes | k d]; try discriminate.
    cbn [forEachArg existsb map forallb]. unfold visitArg, field_of.
    unfold lacks_wrapper at 1. unfold block_target at 1.
    cbn [child_nodes].
    destruct (has_content (Element tag attrs childNodes)) eqn:E;
      cbn [andb orb negb].
    + unfold targetDiv.
      destruct (children_of childNodes) as [| c rest] eqn:C; [reflexivity |].
      destruct (children_of_head _ _ _ C) as (t & a & inner & ->).
      cbn [item0 orb child_nodes]. rewrite IH by assumption.
      destruct (existsb lacks_wrapper args); [reflexivity |].
      now rewrite <- app_assoc, andb_false_r.
    + rewrite IH by assumption.
      destruct (existsb lacks_wrapper args); [reflexivity |].
      now rewrite <- app_assoc.
Qed.

(** X10: on a block (a parent with [data-block-name]) the call throws a TypeError
    exactly when one of the elements has content and no element child;
    otherwise it is null when all elements are empty, and else the callback
    gets, for each element in order, null if it is empty and the first
    element child of its first element child if not, and the parent last. *)
Theorem getNewElem_block :
  forall (R : Type) (args : list Argument) (callback : list JSValue -> R)
         first blockDivElm blockName,
    hd_error args = Some first ->
    parentElement first = Some blockDivElm ->
    dataset_blockName blockDivElm = Some blockName ->
    Forall (fun a => is_element (elm a) = true) args ->
    getNewElem args callback
    = if existsb (fun a => lacks_wrapper (elm a)) args then ThrowTypeError
      else
        Normal
          (if forallb (fun a => negb (has_content (elm a))) args then None
           else
             Some (callback
                     (map (fun a =>
                             if has_content (elm a)
                             then block_target (elm a)
                             else JSNull) args
                      ++ [JSNode blockDivElm]))).
Proof.
  intros R args callback first blockDivElm blockName
         Hfirst Hparent Hblock Hall.
  unfold getNewElem.
  destruct args as [| a args]; [discriminate |].
  injection Hfirst as ->. rewrite Hparent, Hblock.
  rewrite forEachArg_block by (now apply Forall_map).
  rewrite existsb_on_map.
  destruct (existsb _ (first :: args)); [reflexivity |].
  rewrite forallb_on_map, map_map, andb_true_l, app_nil_l.
  unfold field_of. now destruct (forallb _ (first :: args)).
Qed.

Lemma getNewElem_block_example :
  getNewElem
    [{| elm := el "div" [Text (lit "Title")];
        parentElement :=
          Some (Element (lit "div")
                        [(lit "data-block-name", lit "hero")] []) |}]
    (fun fields => fields)
  = ThrowTypeError.
Proof.
  refine (getNewElem_block _
            [{| elm := el "div" [Text (lit "Title")];
                parentElement :=
                  Some (Element (lit "div")
                                [(lit "data-block-name", lit "hero")] []) |}]
            (fun fields => fields) _ _ (lit "hero")
            eq_refl eq_refl eq_refl _).
  repeat constructor.
Defined.

(** ** Class lists *)

Lemma DOMString_eqb_eq : forall a b, DOMString_eqb a b = true <-> a = b.
Proof.
  intros a b. unfold DOMString_eqb.
  destruct (list_eq_dec N.eq_dec a b); split; congruence.
Qed.

Lemma DOMString_eqb_neq : forall a b, DOMString_eqb a b = false <-> a <> b.
Proof.
  intros a b. unfold DOMString_eqb.
  destruct (list_eq_dec N.eq_dec a b); split; congruence.
Qed.

Lemma getAttribute_setAttribute : forall name value attrs,
    getAttribute name (setAttribute name value attrs) = Some value.
Proof.
  intros name value attrs. unfold getAttribute.
  induction attrs as [| [n v] attrs IH]; simpl.
  - now rewrite (proj2 (DOMString_eqb_eq name name) eq_refl).
  - destruct (DOMString_eqb n name) eqn:E; simpl; now rewrite E.
Qed.

Lemma getAttribute_setAttribute_other : forall name other value attrs,
    other <> name ->
    getAttribute other (setAttribute name value attrs)
    = getAttribute other attrs.
Proof.
  intros name other value attrs Hne. unfold getAttribute.
  induction attrs as [| [n v] attrs IH]; simpl.
  - apply not_eq_sym, DOMString_eqb_neq in Hne. now rewrite Hne.
  - destruct (DOMString_eqb n name) eqn:E; simpl.
    + apply DOMString_eqb_eq in E. subst n.
      apply not_eq_sym, DOMString_eqb_neq in Hne. now rewrite Hne.
    + destruct (DOMString_eqb n other); [reflexivity | assumption].
Qed.

Lemma token_mem_In : forall token tokens,
    token_mem token tokens = true <-> In token tokens.
Proof.
  intros token tokens. unfold token_mem. rewrite existsb_exists. split.
  - intros (t & Hin & ->%DOMString_eqb_eq). assumption.
  - intros Hin. exists token. split; [assumption | now apply DOMString_eqb_eq].
Qed.

Lemma token_mem_not_In : forall token tokens,
    token_mem token tokens = false <-> ~ In token tokens.
Proof.
  intros token tokens. rewrite <- token_mem_In.
  destruct (token_mem token tokens); split; congruence.
Qed.

(** Reading a token: code units that are not white space are collected. *)
Lemma split_tokens_read : forall token s acc,
    forallb (fun c => negb (is_ascii_whitespace c)) token = true ->
    split_tokens (token ++ s) acc = split_tokens s (acc ++ token).
Proof.
  induction token as [| c token IH]; intros s acc Hfree; simpl.
  - now rewrite app_nil_r.
  - simpl in Hfree. apply andb_prop in Hfree as [Hc Hfree].
    apply negb_true_iff in Hc. rewrite Hc.
    rewrite IH by assumption. now rewrite <- app_assoc.
Qed.

Lemma is_empty_false : forall s, s <> [] -> is_empty s = false.
Proof. intros [| c s] H; [congruence | reflexivity]. Qed.

(** Parsing what was serialized gives the tokens back. *)
Lemma split_serialize : forall tokens,
    Forall valid_token tokens ->
    split_tokens (serialize_tokens tokens) [] = tokens.
Proof.
  induction tokens as [| token rest IH]; intros Hvalid; [reflexivity |].
  inversion Hvalid as [| ? ? [Hne Hfree] Hrest]; subst.
  destruct rest as [| next rest].
  - simpl. rewrite <- (app_nil_r token) at 1.
    rewrite split_tokens_read by assumption. simpl.
    now rewrite is_empty_false.
  - change (serialize_tokens (token :: next :: rest))
      with (token ++ 32%N :: serialize_tokens (next :: rest)).
    rewrite split_tokens_read by assumption.
    cbn [app split_tokens]. change (is_ascii_whitespace 32%N) with true.
    cbn iota. rewrite is_empty_false by assumption.
    now rewrite IH.
Qed.

Lemma fold_append_distinct : forall tokens acc,
    NoDup (acc ++ tokens) ->
    fold_left append_token tokens acc = acc ++ tokens.
Proof.
  induction tokens as [| token tokens IH]; intros acc Hnd; simpl.
  - now rewrite app_nil_r.
  - unfold append_token at 2.
    assert (Hnot : ~ In token acc).
    { apply NoDup_remove_2 in Hnd. intros Hin. apply Hnd.
      apply in_or_app. now left. }
    apply token_mem_not_In in Hnot. rewrite Hnot.
    rewrite IH; rewrite <- app_assoc; [reflexivity | assumption].
Qed.

Lemma append_token_wf : forall tokens token,
    valid_token token ->
    Forall valid_token tokens /\ NoDup tokens ->
    Forall valid_token (append_token tokens token)
    /\ NoDup (append_token tokens token).
Proof.
  intros tokens token Hvalid [Hall Hnd]. unfold append_token.
  destruct (token_mem token tokens) eqn:E; [now split |].
  apply token_mem_not_In in E. split.
  - apply Forall_app. split; [assumption | now constructor].
  - apply NoDup_app; [assumption | repeat constructor; intros [] |].
    intros t Hin [<- | []]. contradiction.
Qed.

Lemma fold_append_wf : forall tokens acc,
    Forall valid_token tokens ->
    Forall valid_token acc /\ NoDup acc ->
    Forall valid_token (fold_left append_token tokens acc)
    /\ NoDup (fold_left append_token tokens acc).
Proof.
  induction tokens as [| token tokens IH]; intros acc Hall Hacc; simpl.
  - assumption.
  - inversion Hall; subst. apply IH; [assumption |].
    now apply append_token_wf.
Qed.

Lemma split_tokens_valid : forall s acc,
    forallb (fun c => negb (is_ascii_whitespace c)) acc = true ->
    Forall valid_token (split_tokens s acc).
Proof.
  induction s as [| c s IH]; intros acc Hfree; simpl.
  - destruct acc as [| a acc]; simpl; [constructor |].
    constructor; [| constructor]. split; [discriminate | assumption].
  - destruct (is_ascii_whitespace c) eqn:E.
    + destruct acc as [| a acc]; simpl; [now apply IH |].
      constructor; [| now apply IH]. split; [discriminate | assumption].
    + apply IH. rewrite forallb_app, Hfree. simpl. now rewrite E.
Qed.

(** The token set of a class attribute holds valid tokens, once each. *)
Lemma classTokens_wf : forall attrs,
    Forall valid_token (classTokens attrs) /\ NoDup (classTokens attrs).
Proof.
  intros attrs. unfold classTokens.
  destruct (getAttribute (lit "class") attrs) as [value |].
  - apply fold_append_wf; [now apply split_tokens_valid |].
    split; constructor.
  - split; constructor.
Qed.

(** [classList.add] of a valid token: the token set gets the token at its
    end unless it has it, and keeps the others in their order. *)
Lemma classTokens_add : forall token attrs,
    valid_token token ->
    classTokens (classList_add token attrs)
    = append_token (classTokens attrs) token.
Proof.
  intros token attrs Hvalid. unfold classList_add.
  destruct (append_token_wf _ _ Hvalid (classTokens_wf attrs)) as [Hall Hnd].
  unfold classTokens at 1. rewrite getAttribute_setAttribute.
  unfold ordered_set_parser. rewrite split_serialize by assumption.
  now rewrite fold_append_distinct.
Qed.

(** ** decorate *)

Lemma children_of_all_elements : forall childNodes,
    Forall (fun n => is_element n = true) (children_of childNodes).
Proof.
  intros childNodes. apply Forall_forall. intros n Hin.
  now apply filter_In in Hin.
Qed.

Lemma children_of_elements : forall rows,
    Forall (fun n => is_element n = true) rows -> children_of rows = rows.
Proof.
  intros rows Hall. apply forallb_filter_id, forallb_forall.
  now apply Forall_forall.
Qed.

(** X11: the decorated block has two children, the media wrapper and the content
    wrapper, whatever it held: at most one node in the first, and in the
    second one node for each of the rows 2 to 4 that exist. *)
Theorem decorate_shape :
  forall tag attrs childNodes,
    exists attrs' media content,
      decorate (Element tag attrs childNodes)
      = Normal
          (Element tag attrs'
             [Element (lit "div")
                      [(lit "class", lit "hero-banner-media")] media;
              Element (lit "div")
                      [(lit "class", lit "hero-banner-content")] content])
      /\ (List.length media <= 1)%nat
      /\ List.length content
         = Nat.min (List.length (children_of childNodes) - 1) 3.
Proof.
  intros tag attrs childNodes. unfold decorate.
  destruct (children_of childNodes) as [| r0 [| r1 [| r2 [| r3 rest]]]];
    cbn [nth_error];
    try destruct (querySelector (lit "picture") r0);
    eexists _, _, _; (split; [reflexivity | split; simpl; lia]).
Qed.

(** X12: the block gets the class [hero-banner-initialized] at the end of its
    class list unless it has it, keeps its other classes in their order,
    its tag name and every other attribute. *)
Theorem decorate_marks_block :
  forall tag attrs childNodes,
    exists attrs' children',
      decorate (Element tag attrs childNodes)
      = Normal (Element tag attrs' children')
      /\ classTokens attrs'
         = append_token (classTokens attrs) (lit "hero-banner-initialized")
      /\ forall name,
          name <> lit "class" ->
          getAttribute name attrs' = getAttribute name attrs.
Proof.
  intros tag attrs childNodes. unfold decorate.
  eexists _, _. split; [reflexivity |]. split.
  - apply classTokens_add. split; [discriminate | reflexivity].
  - intros name Hname. unfold classList_add.
    now apply getAttribute_setAttribute_other.
Qed.

Lemma find_first : forall (A : Type) (f : A -> bool) l x,
    find f l = Some x ->
    exists before after,
      l = before ++ x :: after
      /\ f x = true
      /\ Forall (fun y => f y = false) before.
Proof.
  induction l as [| y l IH]; intros x Hfind; simpl in Hfind; [discriminate |].
  destruct (f y) eqn:E.
  - injection Hfind as <-. exists [], l. repeat split; trivial.
  - destruct (IH x Hfind) as (before & after & -> & Hx & Hbefore).
    exists (y :: before), after. repeat split; trivial. now constructor.
Qed.

(** X13: the media wrapper holds the first picture element of the first row, in
    document order, and nothing else; it is empty when the block has no row
    or the first row no picture. *)
Theorem decorate_media :
  forall tag attrs childNodes,
    exists attrs' media content,
      decorate (Element tag attrs childNodes)
      = Normal
          (Element tag attrs' [wrapper "hero-banner-media" media; content])
      /\ match children_of childNodes with
         | [] => media = []
         | row :: _ =>
             (media = []
              /\ forall d, In d (descendants row) ->
                           has_name (lit "picture") d = false)
             \/ (exists picture before after,
                    media = [picture]
                    /\ descendants row = before ++ picture :: after
                    /\ has_name (lit "picture") picture = true
                    /\ Forall (fun d => has_name (lit "picture") d = false)
                              before)
         end.
Proof.
  intros tag attrs childNodes. unfold decorate.
  eexists _, _, _. split; [reflexivity |].
  destruct (children_of childNodes) as [| row rows]; cbn [nth_error];
    [reflexivity |].
  unfold querySelector.
  destruct (find (has_name (lit "picture")) (descendants row)) as [p |] eqn:E.
  - right. destruct (find_first _ _ _ _ E) as (before & after & H).
    now exists p, before, after.
  - left. split; [reflexivity |]. now apply find_none.
Qed.

Lemma Forall_first : forall (A : Type) (P : A -> Prop) n l,
    Forall P l -> Forall P (firstn n l).
Proof.
  induction n as [| n IH]; intros l Hall; simpl; [constructor |].
  destruct Hall; constructor; auto.
Qed.

(** X14: only the first four element children of the block are used: text and
    comments between the rows and every row after the fourth are dropped. *)
Theorem decorate_first_four_rows :
  forall tag attrs childNodes,
    decorate (Element tag attrs childNodes)
    = decorate (Element tag attrs (firstn 4 (children_of childNodes))).
Proof.
  intros tag attrs childNodes. unfold decorate.
  assert (Hrows : children_of (firstn 4 (children_of childNodes))
                  = firstn 4 (children_of childNodes)).
  { apply children_of_elements, Forall_first, children_of_all_elements. }
  rewrite Hrows.
  now destruct (children_of childNodes) as [| r0 [| r1 [| r2 [| r3 rest]]]].
Qed.

Lemma inner_of_element : forall row,
    is_element row = true -> is_element (inner_of row) = true.
Proof.
  intros row Hrow. unfold inner_of.
  destruct (children_of (child_nodes row)) as [| first rest] eqn:E;
    [assumption |].
  destruct (children_of_head _ _ _ E) as (t & a & inner & ->). reflexivity.
Qed.

Lemma descendant_text_add_class : forall cls n,
    descendant_text (add_class cls n) = descendant_text n.
Proof. intros cls [s | tag attrs children | k d]; reflexivity. Qed.

Lemma descendant_text_child_nodes : forall n,
    is_element n = true ->
    flat_map descendant_text (child_nodes n) = descendant_text n.
Proof. intros [s | tag attrs children | k d] H; (reflexivity || discriminate). Qed.

(** X15: the text of the decorated block is the text of the picture followed by
    the texts of what rows 2 to 4 contribute, each the first element child
    of the row or the row itself: none of that text is altered. *)
Theorem decorate_text :
  forall tag attrs childNodes,
    exists out,
      decorate (Element tag attrs childNodes) = Normal out
      /\ descendant_text out
         = match children_of childNodes with
           | [] => []
           | row :: rows =>
               match querySelector (lit "picture") row with
               | Some picture => descendant_text picture
               | None => []
               end
               ++ flat_map (fun r => descendant_text (inner_of r))
                           (firstn 3 rows)
           end.
Proof.
  intros tag attrs childNodes. unfold decorate.
  eexists. split; [reflexivity |].
  pose proof (children_of_all_elements childNodes) as Hall.
  destruct (children_of childNodes) as [| r0 [| r1 [| r2 [| r3 rest]]]];
    cbn [nth_error]; try reflexivity;
    destruct (querySelector (lit "picture") r0);
    cbn [descendant_text wrapper flat_map firstn app];
    rewrite ?descendant_text_add_class, ?app_nil_r; try reflexivity.
  all: rewrite descendant_text_child_nodes;
    [now rewrite ?app_nil_r
    | apply inner_of_element; inversion Hall as [| ? ? _ H1]; subst;
      inversion H1 as [| ? ? _ H2]; subst;
      inversion H2 as [| ? ? _ H3]; subst;
      now inversion H3].
Qed.
